(** * calscape_geophytes: the geophyte selection pipeline, embedded and verified

    A shallow embedding of [calscape_geophytes.py].  Python [str] values are
    Rocq strings holding the UTF-8 bytes of the text: the byte-wise
    lexicographic order of UTF-8 agrees with Python's code-point order, and
    the bytes of the space and of the apostrophe occur in UTF-8 only as
    those two characters, so [sorted], [split(" ")] and the test ["'" in x]
    read the same on both sides.  Dictionaries are [gmap]s, sets are [gset]s,
    and an exception is the [Raise] branch of the [result] monad. *)

From Stdlib Require Import String Ascii.
From stdpp Require Import base option list sets gmap strings sorting pretty.

Local Open Scope string_scope.
Local Open Scope list_scope.

(** ** Exceptions and the result monad *)

Inductive exn : Type :=
  | KeyError (key : string)
  | AssertionError (msg : string)
  | AttributeError.

Inductive result (A : Type) : Type :=
  | Ok (a : A)
  | Raise (e : exn).

Arguments Ok {A} a.
Arguments Raise {A} e.

#[global] Instance result_ret : MRet result := λ A a, Ok a.
#[global] Instance result_bind : MBind result := λ A B f r,
  match r with
  | Ok a => f a
  | Raise e => Raise e
  end.

Definition is_ok {A} (r : result A) : bool :=
  match r with Ok _ => true | Raise _ => false end.

(** A [for] loop whose body may raise: the state is threaded through the
    iterations from left to right and the first exception ends the loop. *)
Fixpoint for_each {A S : Type} (l : list A) (body : A → S → result S)
    (s : S) : result S :=
  match l with
  | [] => Ok s
  | x :: l' => s' ← body x s; for_each l' body s'
  end.

(** ** String primitives *)

(** [s.split(sep)] for a one-character separator: never empty, and [n]
    separators give [n + 1] pieces. *)
Fixpoint split (sep : ascii) (s : string) : list string :=
  match s with
  | EmptyString => [EmptyString]
  | String c s' =>
      if Ascii.eqb c sep then EmptyString :: split sep s'
      else match split sep s' with
           | [] => [String c EmptyString]
           | w :: ws => String c w :: ws
           end
  end.

(** [x.split(" ")[0]] *)
Definition genus_of (x : string) : string :=
  match split " " x with
  | [] => EmptyString
  | w :: _ => w
  end.

(** [c in s] for a one-character needle. *)
Fixpoint contains (c : ascii) (s : string) : bool :=
  match s with
  | EmptyString => false
  | String d s' => Ascii.eqb d c || contains c s'
  end.

(** ["'" in x] *)
Definition is_cultivar (x : string) : bool := contains "'" x.

(** [sorted] on strings. *)
Definition sorted (l : list string) : list string := merge_sort String.le l.

(** ** Static inclusion rules *)

Definition BRODIAE_SUBFAMILY_GENUSES : list string :=
  [ "Androstephium"; "Bessera"; "Bloomeria"; "Brodiaea"; "Dandya";
    "Dichelostemma"; "Milla"; "Muilla"; "Petronymphe"; "Triteleia";
    "Triteleiopsis" ].

Definition AGAVE_SUBFAMILY_GEOPHYTE_GENUSES : list string :=
  [ "Camassia"; "Chlorogalum"; "Hesperocallis"; "Leucocrinum" ].

(** ** The worksheet and [get_column] *)

(** A cell value is [Some s] for a text cell and [None] for an empty one
    (openpyxl's [None]).  The worksheet is what openpyxl exposes: its last
    populated row and the value at a column letter and a row number. *)
Definition value : Type := option string.

Record Worksheet : Type := {
  max_row : nat;
  cell : string → nat → value;
}.

Definition show_value (v : value) : string :=
  match v with Some s => s | None => "None" end.

Definition get_column (sheet : Worksheet) (expected_name : string)
    (start_row : nat) (column : string) : result (list value) :=
  let first := cell sheet column start_row in
  if decide (first = Some expected_name) then
    Ok (cell sheet column <$> seq (start_row + 1) (max_row sheet - start_row))
  else
    Raise (AssertionError
      ("Expected " +:+ column +:+ pretty start_row +:+ " = " +:+ expected_name
         +:+ "; got " +:+ show_value first)).

(** ** CalscapePlants *)

Record CalscapePlants : Type := {
  genus_to_species : gmap string (gset string);
  species_to_url : gmap value value;
  species_to_common_name : gmap value value;
}.

(** [d[k].add(x)] on a [defaultdict(set)]. *)
Definition add_to (k x : string) (d : gmap string (gset string))
    : gmap string (gset string) :=
  <[k := default ∅ (d !! k) ∪ {[x]}]> d.

(** The loop of lines 63-64; [x.split] raises on a cell that is not text. *)
Definition index_species (species : list value)
    : result (gmap string (gset string)) :=
  for_each species
    (λ x d, match x with
            | Some s => Ok (add_to (genus_of s) s d)
            | None => Raise AttributeError
            end) ∅.

(** [dict(zip(keys, vals))]: later pairs overwrite earlier ones. *)
Definition dict_zip (keys vals : list value) : gmap value value :=
  foldl (λ d kv, <[kv.1 := kv.2]> d) ∅ (zip keys vals).

Definition CalscapePlants_of_columns (species common_names urls : list value)
    : result CalscapePlants :=
  g2s ← index_species species;
  Ok {| genus_to_species := g2s;
        species_to_url := dict_zip species urls;
        species_to_common_name := dict_zip species common_names |}.

Definition CalscapePlants_init (sheet : Worksheet) : result CalscapePlants :=
  species ← get_column sheet "Botanical Name" 6 "A";
  common_names ← get_column sheet "Common Name" 6 "B";
  urls ← get_column sheet "Plant Url" 6 "AW";
  CalscapePlants_of_columns species common_names urls.

Definition genuses (cp : CalscapePlants) : gset string :=
  dom (genus_to_species cp).

Definition species_for_genus (cp : CalscapePlants) (genus : string)
    : gset string :=
  default ∅ (genus_to_species cp !! genus).

Definition lookup_key (d : gmap value value) (k : string) : result value :=
  match d !! Some k with
  | Some v => Ok v
  | None => Raise (KeyError k)
  end.

Definition common_name_for_species (cp : CalscapePlants) (species : string)
    : result value :=
  lookup_key (species_to_common_name cp) species.

Definition url_for_species (cp : CalscapePlants) (species : string)
    : result value :=
  lookup_key (species_to_url cp) species.

(** ** InatPlantTaxa *)

(** One record of the taxa file as [csv.DictReader] yields it, restricted to
    the four fields the program reads.  The records are those of a file
    that was read, whose header names the four columns and whose records
    are complete: a file that cannot be read, a header without one of the
    columns (a [KeyError] at line 88) and a record cut short are outside
    this model. *)
Record TaxonRow : Type := {
  kingdom : string;
  taxonRank : string;
  family : string;
  scientificName : string;
}.

Record InatPlantTaxa : Type := {
  family_to_genus : gmap string (gset string);
  genus_to_family : gmap string string;
}.

Definition taxa_row (t : InatPlantTaxa) (row : TaxonRow) : InatPlantTaxa :=
  if decide (kingdom row = "Plantae" ∧ taxonRank row = "genus") then
    {| family_to_genus :=
         add_to (family row) (scientificName row) (family_to_genus t);
       genus_to_family :=
         <[scientificName row := family row]> (genus_to_family t) |}
  else t.

Definition InatPlantTaxa_init (rows : list TaxonRow) : InatPlantTaxa :=
  foldl taxa_row {| family_to_genus := ∅; genus_to_family := ∅ |} rows.

Definition genuses_for_family (t : InatPlantTaxa) (fam : string)
    : gset string :=
  default ∅ (family_to_genus t !! fam).

Definition family_for_genus (t : InatPlantTaxa) (genus : string)
    : result string :=
  match genus_to_family t !! genus with
  | Some f => Ok f
  | None => Raise (KeyError genus)
  end.

(** ** CalscapeGeophytes *)

Record CalscapeGeophytes : Type := {
  calscape_plants : CalscapePlants;
  inat_taxa : InatPlantTaxa;
  calscape_genuses : gset string;
  geophytes : gset string;
  family_tree : gmap string (gmap string (gset string));
}.

Definition set_geophytes (g : gset string) (self : CalscapeGeophytes)
    : CalscapeGeophytes :=
  {| calscape_plants := calscape_plants self;
     inat_taxa := inat_taxa self;
     calscape_genuses := calscape_genuses self;
     geophytes := g;
     family_tree := family_tree self |}.

Definition set_family_tree (ft : gmap string (gmap string (gset string)))
    (self : CalscapeGeophytes) : CalscapeGeophytes :=
  {| calscape_plants := calscape_plants self;
     inat_taxa := inat_taxa self;
     calscape_genuses := calscape_genuses self;
     geophytes := geophytes self;
     family_tree := ft |}.

Definition add_genus (genus : string) (self : CalscapeGeophytes)
    : CalscapeGeophytes :=
  set_geophytes
    (geophytes self ∪ species_for_genus (calscape_plants self) genus) self.

Definition add_genuses (l : list string) (self : CalscapeGeophytes)
    : CalscapeGeophytes :=
  foldl (λ st genus, add_genus genus st) self l.

Definition add_family (fam : string) (self : CalscapeGeophytes)
    : CalscapeGeophytes :=
  let in_calscape :=
    calscape_genuses self ∩ genuses_for_family (inat_taxa self) fam in
  add_genuses (elements in_calscape) self.

(** [family_tree[family][genus].add(species)] on the nested defaultdict. *)
Definition tree_add (fam genus species : string)
    (ft : gmap string (gmap string (gset string)))
    : gmap string (gmap string (gset string)) :=
  <[fam := add_to genus species (default ∅ (ft !! fam))]> ft.

(** The body of the loop of lines 115-118. *)
Definition place (t : InatPlantTaxa) (species : string)
    (ft : gmap string (gmap string (gset string)))
    : result (gmap string (gmap string (gset string))) :=
  let genus := genus_of species in
  fam ← family_for_genus t genus;
  Ok (tree_add fam genus species ft).

(** Lines 102-113: the object once every inclusion rule has run, before the
    family tree is built. *)
Definition select (cp : CalscapePlants) (t : InatPlantTaxa)
    : CalscapeGeophytes :=
  let self := {| calscape_plants := cp;
                 inat_taxa := t;
                 calscape_genuses := genuses cp;
                 geophytes := ∅;
                 family_tree := ∅ |} in
  let self := add_family "Liliaceae" self in
  let self := add_genuses BRODIAE_SUBFAMILY_GENUSES self in
  let self := add_genus "Allium" self in
  let self := add_family "Iridaceae" self in
  let self := add_genuses AGAVE_SUBFAMILY_GEOPHYTE_GENUSES self in
  add_family "Tecophilaeaceae" self.

Definition CalscapeGeophytes_init (cp : CalscapePlants) (t : InatPlantTaxa)
    : result CalscapeGeophytes :=
  let self := select cp t in
  ft ← for_each (elements (geophytes self)) (place t) ∅;
  Ok (set_family_tree ft self).

(** ** Reporter *)

Record Summary : Type := {
  num_geophytes : nat;
  num_no_cultivars : nat;
  num_genera : nat;
  num_families : nat;
}.

Definition summary (self : CalscapeGeophytes) : Summary :=
  {| num_geophytes := size (geophytes self);
     num_no_cultivars :=
       length (filter (λ x, is_cultivar x = false) (elements (geophytes self)));
     num_genera := sum_list (size <$> (map_to_list (family_tree self)).*2);
     num_families := size (family_tree self) |}.

(** The two lines [print_summary] writes to standard output. *)
Definition print_summary (self : CalscapeGeophytes) : list string :=
  let s := summary self in
  [ "Found " +:+ pretty (num_geophytes s) +:+ " geophytes, "
      +:+ pretty (num_no_cultivars s) +:+ " excluding cultivars";
    pretty (num_genera s) +:+ " genera across "
      +:+ pretty (num_families s) +:+ " families" ].

Record Row : Type := {
  row_family : string;
  row_genus : string;
  row_species : string;
  row_common_name : value;
  row_url : value;
}.

Definition keys {V} (d : gmap string V) : list string := (map_to_list d).*1.

(** Lines 138-157: the rows in the order they are appended. *)
Definition csv_rows (self : CalscapeGeophytes) (exclude_cultivars : bool)
    : result (list Row) :=
  let families := sorted (keys (family_tree self)) in
  for_each families (λ fam rows,
    let genuses := sorted (keys (default ∅ (family_tree self !! fam))) in
    for_each genuses (λ genus rows,
      let species :=
        sorted (elements
          (default ∅ (default ∅ (family_tree self !! fam) !! genus))) in
      for_each species (λ name rows,
        if exclude_cultivars && is_cultivar name then Ok rows
        else
          cn ← common_name_for_species (calscape_plants self) name;
          url ← url_for_species (calscape_plants self) name;
          Ok (rows ++ [ {| row_family := fam;
                           row_genus := genus;
                           row_species := name;
                           row_common_name := cn;
                           row_url := url |} ])) rows) rows) [].

(** A written CSV file: the header line and the records below it. *)
Record CsvFile : Type := {
  fieldnames : list string;
  records : list Row;
}.

(** The file system as far as [write_csv] is concerned: the content found at
    each path.  [open(path, "wt")] is taken to succeed and a path to name
    the file it spells: a path that cannot be opened for writing, and two
    spellings of one file, are outside this model.  The branch of
    [write_csv] without rows returns before [open] and depends on neither. *)
Definition FileSystem : Type := gmap string CsvFile.

Definition write_csv (self : CalscapeGeophytes) (path : string)
    (exclude_cultivars : bool) (fs : FileSystem) : result FileSystem :=
  rows ← csv_rows self exclude_cultivars;
  match rows with
  | [] => Ok fs
  | _ :: _ =>
      Ok (<[path := {| fieldnames :=
                         ["family"; "genus"; "species"; "common_name"; "url"];
                       records := rows |}]> fs)
  end.

(** The [__main__] block after argument parsing: the worksheet and the
    records of the taxa file stand for the two input files once they were
    read. *)
Definition main (sheet : Worksheet) (taxa_rows : list TaxonRow)
    (exclude_cultivars : bool) (output_csv : string) (fs : FileSystem)
    : result (list string * FileSystem) :=
  cp ← CalscapePlants_init sheet;
  let t := InatPlantTaxa_init taxa_rows in
  g ← CalscapeGeophytes_init cp t;
  let out := print_summary g in
  if decide (output_csv = "") then Ok (out, fs)
  else fs' ← write_csv g output_csv exclude_cultivars fs; Ok (out, fs').

(** ** A small worked input *)

Definition or_else {A} (d : A) (r : result A) : A :=
  match r with Ok a => a | Raise _ => d end.

Module Sample.

Definition column (header : string) (l : list string) (r : nat) : value :=
  if decide (r = 6) then Some header else l !! (r - 7).

(** A worksheet with the three headers in row 6 and one plant per row
    below. *)
Definition sheet_of (rows : list (string * string * string)) : Worksheet :=
  {| max_row := 6 + length rows;
     cell := λ col r,
       if decide (col = "A") then column "Botanical Name" (rows.*1.*1) r
       else if decide (col = "B") then column "Common Name" (rows.*1.*2) r
       else if decide (col = "AW") then column "Plant Url" (rows.*2) r
       else None |}.

Definition no_plants : CalscapePlants :=
  {| genus_to_species := ∅; species_to_url := ∅;
     species_to_common_name := ∅ |}.

Definition plants_of (rows : list (string * string * string))
    : CalscapePlants :=
  or_else no_plants (CalscapePlants_init (sheet_of rows)).

Definition taxon (fam genus : string) : TaxonRow :=
  {| kingdom := "Plantae"; taxonRank := "genus";
     family := fam; scientificName := genus |}.

Definition object_of (cp : CalscapePlants) (t : InatPlantTaxa)
    : CalscapeGeophytes :=
  or_else (select cp t) (CalscapeGeophytes_init cp t).

Definition rows : list (string * string * string) :=
  [ ("Brodiaea elegans", "Harvest brodiaea", "https://calscape.org/1");
    ("Brodiaea jolonensis", "Mesa brodiaea", "https://calscape.org/2");
    ("Camassia quamash 'Orion'", "Camas", "https://calscape.org/3");
    ("Quercus agrifolia", "Coast live oak", "https://calscape.org/4");
    ("Calochortus albus", "Fairy lantern", "https://calscape.org/5") ].

Definition sheet : Worksheet := sheet_of rows.

Definition taxa_rows : list TaxonRow :=
  [ taxon "Asparagaceae" "Brodiaea";
    taxon "Asparagaceae" "Camassia";
    taxon "Fagaceae" "Quercus";
    taxon "Liliaceae" "Calochortus";
    {| kingdom := "Animalia"; taxonRank := "genus";
       family := "Felidae"; scientificName := "Felis" |} ].

Definition species : list value := Some <$> rows.*1.*1.
Definition common_names : list value := Some <$> rows.*1.*2.
Definition urls : list value := Some <$> rows.*2.

Definition plants : CalscapePlants := plants_of rows.
Definition taxa : InatPlantTaxa := InatPlantTaxa_init taxa_rows.
Definition object : CalscapeGeophytes := object_of plants taxa.

(** The rows [write_csv] computes for [object], cultivars included. *)
Definition report : list Row := or_else [] (csv_rows object false).

(** The rows [write_csv] computes for [object] with [exclude_cultivars]. *)
Definition report_kept : list Row := or_else [] (csv_rows object true).

(** A table without geophytes, and a table whose geophytes are all
    cultivars. *)
Definition oak_plants : CalscapePlants :=
  plants_of [("Quercus agrifolia", "Coast live oak", "https://calscape.org/4")].

Definition oak_only : CalscapeGeophytes := object_of oak_plants taxa.

Definition cultivar_plants : CalscapePlants :=
  plants_of [("Camassia quamash 'Orion'", "Camas", "https://calscape.org/3");
             ("Quercus agrifolia", "Coast live oak", "https://calscape.org/4")].

Definition cultivars_only : CalscapeGeophytes :=
  object_of cultivar_plants taxa.

(** A taxa file that lists one genus under two families. *)
Definition homonym_rows : list TaxonRow :=
  [ taxon "Liliaceae" "Allium"; taxon "Amaryllidaceae" "Allium" ].

Definition homonym_taxa : InatPlantTaxa := InatPlantTaxa_init homonym_rows.

(** A table with a one-word name under an explicitly listed genus. *)
Definition one_word_plants : CalscapePlants :=
  plants_of [("Allium", "Wild onion", "https://calscape.org/6")].

Definition one_word_taxa : InatPlantTaxa :=
  InatPlantTaxa_init [taxon "Amaryllidaceae" "Allium"].

Definition one_word_object : CalscapeGeophytes :=
  object_of one_word_plants one_word_taxa.

(** A table in which one name starts with a space, with the taxonomy that
    lists its genus, and the object before the first inclusion rule. *)
Definition spaced_rows : list (string * string * string) :=
  [ ("Calochortus albus", "Fairy lantern", "https://calscape.org/5");
    (" Calochortus venustus", "Butterfly mariposa lily",
     "https://calscape.org/9") ].

Definition spaced_species : list value := Some <$> spaced_rows.*1.*1.
Definition spaced_common_names : list value := Some <$> spaced_rows.*1.*2.
Definition spaced_urls : list value := Some <$> spaced_rows.*2.

Definition spaced_plants : CalscapePlants := plants_of spaced_rows.

Definition spaced_taxa : InatPlantTaxa :=
  InatPlantTaxa_init [taxon "Liliaceae" "Calochortus"].

Definition spaced_fresh : CalscapeGeophytes :=
  {| calscape_plants := spaced_plants; inat_taxa := spaced_taxa;
     calscape_genuses := genuses spaced_plants; geophytes := ∅;
     family_tree := ∅ |}.

(** The object as [__init__] has it before the first inclusion rule. *)
Definition fresh : CalscapeGeophytes :=
  {| calscape_plants := plants; inat_taxa := taxa;
     calscape_genuses := genuses plants; geophytes := ∅;
     family_tree := ∅ |}.

End Sample.

(** * Specification vocabulary *)

Definition str_lt (a b : string) : Prop := String.le a b ∧ a ≠ b.

(** The rows the reader keeps. *)
Definition plant_genus (row : TaxonRow) : Prop :=
  kingdom row = "Plantae" ∧ taxonRank row = "genus".

#[global] Instance plant_genus_dec row : Decision (plant_genus row).
Proof. unfold plant_genus. apply _. Defined.

(** No genus is listed under two families. *)
Definition one_family_per_genus (rows : list TaxonRow) : Prop :=
  Forall (λ r1, Forall (λ r2,
    plant_genus r1 → plant_genus r2 →
    scientificName r1 = scientificName r2 → family r1 = family r2) rows) rows.

#[global] Instance one_family_per_genus_dec rows :
  Decision (one_family_per_genus rows).
Proof. unfold one_family_per_genus. apply _. Defined.

(** The part of the object the inclusion steps read and never write. *)
Definition built_on (cp : CalscapePlants) (t : InatPlantTaxa)
    (self : CalscapeGeophytes) : Prop :=
  calscape_plants self = cp ∧ inat_taxa self = t ∧
  calscape_genuses self = genuses cp.

(** The genera the static rule set selects for given inputs. *)
Definition included (cp : CalscapePlants) (t : InatPlantTaxa)
    (genus : string) : Prop :=
  genus ∈ BRODIAE_SUBFAMILY_GENUSES ∨ genus = "Allium" ∨
  genus ∈ AGAVE_SUBFAMILY_GEOPHYTE_GENUSES ∨
  ∃ fam, fam ∈ ["Liliaceae"; "Iridaceae"; "Tecophilaeaceae"] ∧
         genus ∈ genuses cp ∩ genuses_for_family t fam.

(** [species] is in the set stored at [family_tree[fam][genus]]. *)
Definition in_cell (ft : gmap string (gmap string (gset string)))
    (fam genus species : string) : Prop :=
  ∃ m S, ft !! fam = Some m ∧ m !! genus = Some S ∧ species ∈ S.

Definition triple : Type := string * string * string.

(** Family first, then genus, then species, each in strictly ascending
    string order. *)
Definition triple_lt (a b : triple) : Prop :=
  str_lt a.1.1 b.1.1 ∨
  (a.1.1 = b.1.1 ∧
   (str_lt a.1.2 b.1.2 ∨ (a.1.2 = b.1.2 ∧ str_lt a.2 b.2))).

Definition row_key (r : Row) : triple :=
  (row_family r, row_genus r, row_species r).

Definition row_lt (r1 r2 : Row) : Prop := triple_lt (row_key r1) (row_key r2).

(** The three nested loops of [write_csv] as the list of positions they
    visit. *)
Definition species_triples (ft : gmap string (gmap string (gset string)))
    (fam genus : string) : list triple :=
  (λ name, (fam, genus, name)) <$>
    sorted (elements (default ∅ (default ∅ (ft !! fam) !! genus))).

Definition genus_triples (ft : gmap string (gmap string (gset string)))
    (fam : string) : list triple :=
  sorted (keys (default ∅ (ft !! fam))) ≫= species_triples ft fam.

Definition csv_triples (ft : gmap string (gmap string (gset string)))
    : list triple :=
  sorted (keys ft) ≫= genus_triples ft.

(** The body of the innermost loop. *)
Definition emit (cp : CalscapePlants) (exclude_cultivars : bool)
    (tr : triple) (rows : list Row) : result (list Row) :=
  if exclude_cultivars && is_cultivar tr.2 then Ok rows
  else
    cn ← common_name_for_species cp tr.2;
    url ← url_for_species cp tr.2;
    Ok (rows ++ [ {| row_family := tr.1.1;
                     row_genus := tr.1.2;
                     row_species := tr.2;
                     row_common_name := cn;
                     row_url := url |} ]).

(** The positions the cultivar test lets through. *)
Definition kept (exclude_cultivars : bool) (tr : triple) : Prop :=
  exclude_cultivars && is_cultivar tr.2 = false.

#[global] Instance kept_dec ex tr : Decision (kept ex tr).
Proof. unfold kept. apply _. Defined.

(** Both lookups of a row find what the row carries. *)
Definition row_looked_up (cp : CalscapePlants) (r : Row) : Prop :=
  species_to_common_name cp !! Some (row_species r) = Some (row_common_name r) ∧
  species_to_url cp !! Some (row_species r) = Some (row_url r).

(** Every name stored anywhere in the tree, cell after cell. *)
Definition tree_species (ft : gmap string (gmap string (gset string)))
    : list string :=
  map_to_list ft ≫= λ fm, map_to_list fm.2 ≫= λ gs, elements gs.2.

(** The derived genus as the specification words it, to be compared with
    [genus_of]: the first whitespace-delimited token of the name, that is
    the name without its leading whitespace, up to the next whitespace
    character (Python's [x.split()[0]]; the empty string when the name holds
    no token). *)
Definition is_whitespace (c : ascii) : bool :=
  let n := nat_of_ascii c in
  Nat.eqb n 32 || (Nat.leb 9 n && Nat.leb n 13).

Fixpoint skip_whitespace (s : string) : string :=
  match s with
  | EmptyString => EmptyString
  | String c s' => if is_whitespace c then skip_whitespace s' else s
  end.

Fixpoint take_token (s : string) : string :=
  match s with
  | EmptyString => EmptyString
  | String c s' =>
      if is_whitespace c then EmptyString else String c (take_token s')
  end.

Definition first_whitespace_token (s : string) : string :=
  take_token (skip_whitespace s).

(** The three header cells [CalscapePlants.__init__] asserts on. *)
Definition headers_ok (sheet : Worksheet) : Prop :=
  cell sheet "A" 6 = Some "Botanical Name" ∧
  cell sheet "B" 6 = Some "Common Name" ∧
  cell sheet "AW" 6 = Some "Plant Url".

(** The row numbers below the header, down to the last populated row. *)
Definition data_rows (sheet : Worksheet) : list nat :=
  seq 7 (max_row sheet - 6).

(** [genus] is a key of the inner dictionary [family_tree[fam]]. *)
Definition has_genus (ft : gmap string (gmap string (gset string)))
    (fam genus : string) : Prop :=
  ∃ m, ft !! fam = Some m ∧ is_Some (m !! genus).

(** The (family, genus) pairs of the tree, family after family. *)
Definition tree_pairs (ft : gmap string (gmap string (gset string)))
    : list (string * string) :=
  map_to_list ft ≫= λ fm, (λ genus, (fm.1, genus)) <$> keys fm.2.

(** * Properties *)

(** ** Loops and strings *)

Section Loops.
Context {A S : Type}.
Implicit Types (l : list A) (body : A → S → result S) (s : S).

Lemma for_each_app l1 l2 body s :
  for_each (l1 ++ l2) body s = (s' ← for_each l1 body s; for_each l2 body s').
Proof.
  revert s; induction l1 as [|x l1 IH]; intros s; simpl; [done|].
  destruct (body x s) as [s'|e]; simpl; [apply IH | done].
Qed.

(** A loop whose body never raises is a left fold. *)
Lemma for_each_total l (step : A → S → S) s :
  for_each l (λ x s, Ok (step x s)) s = Ok (foldl (λ s x, step x s) s l).
Proof. revert s; induction l as [|x l IH]; intros s; simpl; [done | apply IH]. Qed.

(** Invariant rule: what every successful iteration preserves holds on
    exit from a loop that completes. *)
Lemma for_each_ind (P : list A → S → Prop) l body s r :
  P [] s →
  (∀ done x s s', P done s → x ∈ l → body x s = Ok s' → P (done ++ [x]) s') →
  for_each l body s = Ok r →
  P l r.
Proof.
  intros H0 Hstep.
  assert (G : ∀ todo done s, P done s → done ++ todo = l →
              for_each todo body s = Ok r → P l r).
  { induction todo as [|x todo IH]; intros done s0 HP Heq Hrun; simpl in Hrun.
    - rewrite app_nil_r in Heq. by simplify_eq.
    - destruct (body x s0) as [s'|e] eqn:Hb; simpl in Hrun; [|done].
      apply (IH (done ++ [x]) s'); [|by rewrite <- app_assoc|done].
      apply (Hstep done x s0 s'); [done| |done].
      rewrite <- Heq. apply elem_of_app. right. by left. }
  intros Hrun. by apply (G l [] s).
Qed.
End Loops.

Lemma split_nonempty sep s : split sep s ≠ [].
Proof. destruct s as [|c s]; simpl; [done|]. by repeat case_match. Qed.

Lemma genus_of_cons c s :
  genus_of (String c s) =
    if Ascii.eqb c " " then EmptyString else String c (genus_of s).
Proof.
  unfold genus_of; simpl. destruct (Ascii.eqb c " "); [done|].
  destruct (split " " s) eqn:E; [|done]. by apply split_nonempty in E.
Qed.

(** A name that holds no space is its own first piece. *)
Lemma genus_of_no_space s : contains " " s = false → genus_of s = s.
Proof.
  induction s as [|c s IH]; [done|]. simpl. intros H.
  apply orb_false_iff in H as [Hc Hs].
  rewrite genus_of_cons, Hc. by rewrite IH.
Qed.

(** The first piece never holds a space. *)
Lemma genus_of_space_free s : contains " " (genus_of s) = false.
Proof.
  induction s as [|c s IH]; [done|].
  rewrite genus_of_cons. destruct (Ascii.eqb c " ") eqn:E; [done|].
  simpl. by rewrite E, IH.
Qed.

(** ** [sorted] *)

Lemma sorted_perm l : sorted l ≡ₚ l.
Proof. apply merge_sort_Permutation. Qed.

Lemma elem_of_sorted l x : x ∈ sorted l ↔ x ∈ l.
Proof. by rewrite sorted_perm. Qed.

Lemma StronglySorted_lt_of_le (l : list string) :
  NoDup l → StronglySorted String.le l → StronglySorted str_lt l.
Proof.
  induction 2 as [|x l Hl IH Hx]; [constructor|].
  apply NoDup_cons in H as [Hnot Hnd].
  constructor; [by apply IH|].
  rewrite Forall_forall in Hx |- *. intros y Hy. split; [by apply Hx|].
  intros ->. by apply Hnot.
Qed.

Lemma sorted_strict l : NoDup l → StronglySorted str_lt (sorted l).
Proof.
  intros Hnd. apply StronglySorted_lt_of_le.
  - by rewrite sorted_perm.
  - apply (StronglySorted_merge_sort String.le).
Qed.

Lemma sorted_NoDup l : NoDup l → NoDup (sorted l).
Proof. intros. by rewrite sorted_perm. Qed.

(** ** [defaultdict(set)] updates *)

Lemma elem_of_add_to k x (d : gmap string (gset string)) k' y :
  y ∈ default ∅ (add_to k x d !! k') ↔
  y ∈ default ∅ (d !! k') ∨ (k' = k ∧ y = x).
Proof.
  unfold add_to. destruct (decide (k = k')) as [->|Hne].
  - rewrite lookup_insert_eq; simpl. set_solver.
  - rewrite lookup_insert_ne by done. naive_solver.
Qed.

Lemma dom_add_to k x (d : gmap string (gset string)) :
  dom (add_to k x d) = {[k]} ∪ dom d.
Proof. unfold add_to. by rewrite dom_insert_L. Qed.

(** ** The source table *)

Section Source.
Implicit Types (species keys vals : list value) (cp : CalscapePlants).

Lemma get_column_length sheet name r col l :
  get_column sheet name r col = Ok l → length l = max_row sheet - r.
Proof.
  unfold get_column. case_decide; [|done]. intros [= <-].
  by rewrite length_fmap, length_seq.
Qed.

(** What the indexing loop leaves behind: each name sits under its derived
    genus and nowhere else, and the keys are the derived genera. *)
Lemma index_species_spec species d :
  index_species species = Ok d →
  (∀ g y, y ∈ default ∅ (d !! g) ↔ Some y ∈ species ∧ genus_of y = g) ∧
  (∀ g, g ∈ dom d ↔ ∃ y, Some y ∈ species ∧ genus_of y = g).
Proof.
  unfold index_species.
  apply (for_each_ind (λ seen d,
    (∀ g y, y ∈ default ∅ (d !! g) ↔ Some y ∈ seen ∧ genus_of y = g) ∧
    (∀ g, g ∈ dom d ↔ ∃ y, Some y ∈ seen ∧ genus_of y = g))).
  - split.
    + intros g y. rewrite lookup_empty; simpl. set_solver.
    + intros g. rewrite dom_empty_L. set_solver.
  - intros seen [s|] d0 d1 [IH1 IH2] _ Hb; [|done]. injection Hb as <-.
    split.
    + intros g y. rewrite elem_of_add_to, IH1, elem_of_app, list_elem_of_singleton.
      naive_solver.
    + intros g. rewrite dom_add_to, elem_of_union, elem_of_singleton, IH2.
      setoid_rewrite elem_of_app. setoid_rewrite list_elem_of_singleton.
      naive_solver.
Qed.

Lemma index_species_total species :
  (∀ x, x ∈ species → is_Some x) → ∃ d, index_species species = Ok d.
Proof.
  unfold index_species. generalize (∅ : gmap string (gset string)).
  induction species as [|x species IH]; intros d0 Hall; simpl; [by eexists|].
  destruct (Hall x) as [s ->]; [by left|]. simpl.
  apply IH. intros y Hy. apply Hall. by right.
Qed.

Lemma index_species_strings species d :
  index_species species = Ok d → ∀ x, x ∈ species → is_Some x.
Proof.
  unfold index_species. generalize (∅ : gmap string (gset string)).
  induction species as [|x species IH]; intros d0 Hrun y Hy.
  - by apply elem_of_nil in Hy.
  - simpl in Hrun. destruct x as [s|]; [|done]. simpl in Hrun.
    apply elem_of_cons in Hy as [->|Hy]; [by eexists|]. by eapply IH.
Qed.

Lemma foldl_insert_is_Some keys vals (d : gmap value value) k :
  (length keys ≤ length vals)%nat →
  k ∈ keys ∨ is_Some (d !! k) →
  is_Some (foldl (λ d kv, <[kv.1 := kv.2]> d) d (zip keys vals) !! k).
Proof.
  revert vals d. induction keys as [|k0 keys IH]; intros vals d Hlen Hk.
  - simpl. destruct Hk as [Hk|Hk]; [by apply elem_of_nil in Hk | done].
  - destruct vals as [|v vals]; simpl in Hlen; [lia|]. simpl.
    apply IH; [lia|].
    destruct (decide (k = k0)) as [->|Hne].
    + right. rewrite lookup_insert_eq. by eexists.
    + destruct Hk as [Hk|Hk].
      * apply elem_of_cons in Hk as [?|Hk]; [done | by left].
      * right. by rewrite lookup_insert_ne.
Qed.

(** [dict(zip(keys, vals))] has every key when [vals] is not shorter. *)
Lemma dict_zip_is_Some keys vals k :
  (length keys ≤ length vals)%nat → k ∈ keys → is_Some (dict_zip keys vals !! k).
Proof. intros Hlen Hk. apply foldl_insert_is_Some; auto. Qed.

Lemma dict_zip_dom keys vals k :
  is_Some (dict_zip keys vals !! k) → k ∈ keys.
Proof.
  unfold dict_zip.
  assert (G : ∀ (d : gmap value value),
    is_Some (foldl (λ d kv, <[kv.1 := kv.2]> d) d (zip keys vals) !! k) →
    k ∈ keys ∨ is_Some (d !! k)).
  { revert vals. induction keys as [|k0 keys IH]; intros vals d; [by right|].
    destruct vals as [|v vals]; [by right|]. simpl. intros H.
    apply IH in H as [H|H]; [left; by right|].
    destruct (decide (k0 = k)) as [->|Hne]; [left; by left|].
    right. by rewrite lookup_insert_ne in H. }
  intros H. apply G in H as [H|H]; [done|].
  rewrite lookup_empty in H. by destruct H.
Qed.

(** The three columns of a workbook that loads are read over one row
    range. *)
Lemma CalscapePlants_init_columns sheet cp :
  CalscapePlants_init sheet = Ok cp →
  ∃ species common_names urls,
    CalscapePlants_of_columns species common_names urls = Ok cp ∧
    length common_names = length species ∧
    length urls = length species.
Proof.
  unfold CalscapePlants_init.
  destruct (get_column sheet "Botanical Name" 6 "A") as [sp|] eqn:E1; [|done].
  destruct (get_column sheet "Common Name" 6 "B") as [cn|] eqn:E2; [|done].
  destruct (get_column sheet "Plant Url" 6 "AW") as [ur|] eqn:E3; [|done].
  simpl. intros H. exists sp, cn, ur. split; [done|].
  apply get_column_length in E1, E2, E3. lia.
Qed.

Lemma of_columns_fields species common_names urls cp :
  CalscapePlants_of_columns species common_names urls = Ok cp →
  index_species species = Ok (genus_to_species cp) ∧
  species_to_url cp = dict_zip species urls ∧
  species_to_common_name cp = dict_zip species common_names.
Proof.
  unfold CalscapePlants_of_columns.
  destruct (index_species species) as [d|]; [|done]. simpl.
  by intros [= <-].
Qed.

Lemma elem_of_species_for_genus species common_names urls cp genus y :
  CalscapePlants_of_columns species common_names urls = Ok cp →
  y ∈ species_for_genus cp genus ↔ Some y ∈ species ∧ genus_of y = genus.
Proof.
  intros (Hidx & _ & _)%of_columns_fields.
  apply index_species_spec in Hidx as [H _]. apply H.
Qed.

Lemma elem_of_genuses species common_names urls cp genus :
  CalscapePlants_of_columns species common_names urls = Ok cp →
  genus ∈ genuses cp ↔ ∃ y, Some y ∈ species ∧ genus_of y = genus.
Proof.
  intros (Hidx & _ & _)%of_columns_fields.
  apply index_species_spec in Hidx as [_ H]. apply H.
Qed.
End Source.

(** ** The taxonomy reference *)

Section Taxa.
Implicit Types (rows : list TaxonRow) (t : InatPlantTaxa).

Lemma InatPlantTaxa_init_snoc rows row :
  InatPlantTaxa_init (rows ++ [row]) = taxa_row (InatPlantTaxa_init rows) row.
Proof. unfold InatPlantTaxa_init. by rewrite foldl_app. Qed.

Lemma elem_of_genuses_for_family rows fam g :
  g ∈ genuses_for_family (InatPlantTaxa_init rows) fam ↔
  ∃ row, row ∈ rows ∧ plant_genus row ∧
         family row = fam ∧ scientificName row = g.
Proof.
  induction rows as [|row rows IH] using rev_ind.
  - unfold genuses_for_family; simpl. rewrite lookup_empty; simpl.
    split; [set_solver|]. intros (row & Hin & _). by apply elem_of_nil in Hin.
  - rewrite InatPlantTaxa_init_snoc. unfold taxa_row, genuses_for_family in *.
    setoid_rewrite elem_of_app. setoid_rewrite list_elem_of_singleton.
    case_decide as Hq; simpl.
    + rewrite elem_of_add_to, IH. split.
      * intros [(r & ? & ? & ? & ?)|[-> ->]]; [exists r | exists row]; auto.
      * intros (r & [? | ->] & ? & ? & ?); [left; exists r | right]; auto.
    + rewrite IH. split.
      * intros (r & ? & ? & ? & ?). exists r; auto.
      * intros (r & [? | ->] & ? & ? & ?); [exists r; auto | done].
Qed.

Lemma genus_to_family_row rows g fam :
  genus_to_family (InatPlantTaxa_init rows) !! g = Some fam →
  ∃ row, row ∈ rows ∧ plant_genus row ∧
         family row = fam ∧ scientificName row = g.
Proof.
  induction rows as [|row rows IH] using rev_ind; [done|].
  rewrite InatPlantTaxa_init_snoc. unfold taxa_row.
  setoid_rewrite elem_of_app. setoid_rewrite list_elem_of_singleton.
  case_decide as Hq; simpl.
  - destruct (decide (scientificName row = g)) as [<-|Hne].
    + rewrite lookup_insert_eq. intros [= <-]. exists row. auto.
    + rewrite lookup_insert_ne by done.
      intros (r & ? & ?)%IH. exists r. auto.
  - intros (r & ? & ?)%IH. exists r. auto.
Qed.

Lemma genus_to_family_is_Some rows row :
  row ∈ rows → plant_genus row →
  is_Some (genus_to_family (InatPlantTaxa_init rows) !! scientificName row).
Proof.
  induction rows as [|row' rows IH] using rev_ind.
  - by intros ?%elem_of_nil.
  - rewrite InatPlantTaxa_init_snoc. unfold taxa_row.
    intros Hin Hq. apply elem_of_app in Hin as [Hin|Hin].
    + case_decide; simpl; [|by apply IH].
      destruct (decide (scientificName row' = scientificName row)) as [->|Hne].
      * rewrite lookup_insert_eq. by eexists.
      * rewrite lookup_insert_ne by done. by apply IH.
    + apply list_elem_of_singleton in Hin as ->.
      rewrite decide_True by done. simpl. rewrite lookup_insert_eq. by eexists.
Qed.

(** With a repeated genus the last row decides [genus_to_family]. *)
Lemma genus_to_family_last rows row :
  plant_genus row →
  genus_to_family (InatPlantTaxa_init (rows ++ [row])) !! scientificName row
    = Some (family row).
Proof.
  intros Hq. rewrite InatPlantTaxa_init_snoc. unfold taxa_row.
  rewrite decide_True by done. simpl. by rewrite lookup_insert_eq.
Qed.

Lemma family_for_genus_Ok t g fam :
  family_for_genus t g = Ok fam ↔ genus_to_family t !! g = Some fam.
Proof.
  unfold family_for_genus. destruct (genus_to_family t !! g); naive_solver.
Qed.
End Taxa.

(** ** The inclusion rules *)

Section Selector.
Implicit Types (self : CalscapeGeophytes) (cp : CalscapePlants)
  (t : InatPlantTaxa) (l : list string).

Lemma add_genuses_eq l self :
  add_genuses l self =
  set_geophytes
    (geophytes self ∪ ⋃ (species_for_genus (calscape_plants self) <$> l)) self.
Proof.
  unfold add_genuses. revert self.
  induction l as [|genus l IH]; intros self; simpl.
  - destruct self; unfold set_geophytes; simpl. f_equal. set_solver.
  - rewrite IH. unfold add_genus, set_geophytes; simpl. f_equal. set_solver.
Qed.

Lemma elem_of_add_genuses l self s :
  s ∈ geophytes (add_genuses l self) ↔
  s ∈ geophytes self ∨
  ∃ genus, genus ∈ l ∧ s ∈ species_for_genus (calscape_plants self) genus.
Proof.
  rewrite add_genuses_eq; simpl.
  rewrite elem_of_union, elem_of_union_list.
  setoid_rewrite list_elem_of_fmap. naive_solver.
Qed.

Lemma add_family_eq fam self :
  add_family fam self =
  set_geophytes
    (geophytes self ∪
     ⋃ (species_for_genus (calscape_plants self) <$>
          elements (calscape_genuses self ∩
                    genuses_for_family (inat_taxa self) fam))) self.
Proof. unfold add_family. apply add_genuses_eq. Qed.

Lemma elem_of_add_family fam self s :
  s ∈ geophytes (add_family fam self) ↔
  s ∈ geophytes self ∨
  ∃ genus, genus ∈ calscape_genuses self ∩
                   genuses_for_family (inat_taxa self) fam ∧
           s ∈ species_for_genus (calscape_plants self) genus.
Proof.
  unfold add_family. rewrite elem_of_add_genuses.
  by setoid_rewrite elem_of_elements.
Qed.

Lemma add_genus_built_on cp t genus self :
  built_on cp t self → built_on cp t (add_genus genus self).
Proof. done. Qed.

Lemma add_genuses_built_on cp t l self :
  built_on cp t self → built_on cp t (add_genuses l self).
Proof. by rewrite add_genuses_eq. Qed.

Lemma add_family_built_on cp t fam self :
  built_on cp t self → built_on cp t (add_family fam self).
Proof. by rewrite add_family_eq. Qed.

Lemma elem_of_add_genus genus self s :
  s ∈ geophytes (add_genus genus self) ↔
  s ∈ geophytes self ∨ s ∈ species_for_genus (calscape_plants self) genus.
Proof. unfold add_genus; simpl. apply elem_of_union. Qed.

Lemma select_built_on cp t : built_on cp t (select cp t).
Proof.
  unfold select.
  apply add_family_built_on, add_genuses_built_on, add_family_built_on,
    add_genus_built_on, add_genuses_built_on, add_family_built_on.
  done.
Qed.

Lemma elem_of_select cp t s :
  s ∈ geophytes (select cp t) ↔
  ∃ genus, included cp t genus ∧ s ∈ species_for_genus cp genus.
Proof.
  unfold select, included.
  set (s0 := {| calscape_plants := cp; inat_taxa := t;
                calscape_genuses := genuses cp; geophytes := ∅;
                family_tree := ∅ |}).
  assert (B0 : built_on cp t s0) by done.
  set (s1 := add_family "Liliaceae" s0).
  assert (B1 : built_on cp t s1) by by apply add_family_built_on.
  set (s2 := add_genuses BRODIAE_SUBFAMILY_GENUSES s1).
  assert (B2 : built_on cp t s2) by by apply add_genuses_built_on.
  set (s3 := add_genus "Allium" s2).
  assert (B3 : built_on cp t s3) by by apply add_genus_built_on.
  set (s4 := add_family "Iridaceae" s3).
  assert (B4 : built_on cp t s4) by by apply add_family_built_on.
  set (s5 := add_genuses AGAVE_SUBFAMILY_GEOPHYTE_GENUSES s4).
  assert (B5 : built_on cp t s5) by by apply add_genuses_built_on.
  destruct B0 as (P0 & T0 & G0), B1 as (P1 & T1 & G1),
    B2 as (P2 & T2 & G2), B3 as (P3 & T3 & G3),
    B4 as (P4 & T4 & G4), B5 as (P5 & T5 & G5).
  rewrite elem_of_add_family, P5, T5, G5.
  unfold s5. rewrite elem_of_add_genuses, P4.
  unfold s4. rewrite elem_of_add_family, P3, T3, G3.
  unfold s3. rewrite elem_of_add_genus, P2.
  unfold s2. rewrite elem_of_add_genuses, P1.
  unfold s1. rewrite elem_of_add_family, P0, T0, G0.
  assert (E : geophytes s0 = ∅) by done. rewrite E. clear.
  split.
  - intros [[[[[[H|H]|H]|H]|H]|H]|H].
    + by apply not_elem_of_empty in H.
    + destruct H as (genus & ? & ?). exists genus. split; [|done].
      do 3 right. exists "Liliaceae". split; [by left | done].
    + destruct H as (genus & ? & ?). exists genus. split; [by left | done].
    + exists "Allium". split; [right; by left | done].
    + destruct H as (genus & ? & ?). exists genus. split; [|done].
      do 3 right. exists "Iridaceae". split; [right; by left | done].
    + destruct H as (genus & ? & ?). exists genus. split; [|done].
      right; right; by left.
    + destruct H as (genus & ? & ?). exists genus. split; [|done].
      do 3 right. exists "Tecophilaeaceae". split; [do 2 right; by left | done].
  - intros (genus & Hinc & Hs).
    destruct Hinc as [H|[->|[H|(fam & Hfam & H)]]].
    + do 4 left. right. eauto.
    + do 3 left. by right.
    + left. right. eauto.
    + apply elem_of_cons in Hfam as [->|Hfam].
      { do 5 left. right. eauto. }
      apply elem_of_cons in Hfam as [->|Hfam].
      { do 2 left. right. eauto. }
      apply list_elem_of_singleton in Hfam as ->. right. eauto.
Qed.
End Selector.

(** ** The family tree *)

Section Tree.
Implicit Types (ft : gmap string (gmap string (gset string)))
  (t : InatPlantTaxa) (l : list string).

Lemma in_cell_default ft fam genus s :
  in_cell ft fam genus s ↔
  s ∈ default ∅ (default ∅ (ft !! fam) !! genus).
Proof.
  unfold in_cell. split.
  - intros (m & S & -> & Hg & Hs); simpl. by rewrite Hg.
  - destruct (ft !! fam) as [m|]; simpl.
    + destruct (m !! genus) as [S|] eqn:E; simpl; [eauto|set_solver].
    + rewrite lookup_empty; simpl. set_solver.
Qed.

Lemma in_cell_empty fam genus s : ¬ in_cell ∅ fam genus s.
Proof. intros (m & S & H & _). by rewrite lookup_empty in H. Qed.

Lemma in_cell_tree_add fam genus species ft fam' genus' s :
  in_cell (tree_add fam genus species ft) fam' genus' s ↔
  in_cell ft fam' genus' s ∨ (fam' = fam ∧ genus' = genus ∧ s = species).
Proof.
  rewrite !in_cell_default. unfold tree_add.
  destruct (decide (fam = fam')) as [->|Hne].
  - rewrite lookup_insert_eq; simpl. rewrite elem_of_add_to. naive_solver.
  - rewrite lookup_insert_ne by done. naive_solver.
Qed.

Lemma place_eq t species ft :
  place t species ft =
  match genus_to_family t !! genus_of species with
  | Some fam => Ok (tree_add fam (genus_of species) species ft)
  | None => Raise (KeyError (genus_of species))
  end.
Proof.
  unfold place, family_for_genus.
  by destruct (genus_to_family t !! genus_of species).
Qed.

Lemma place_Ok t species ft ft' :
  place t species ft = Ok ft' ↔
  ∃ fam, genus_to_family t !! genus_of species = Some fam ∧
         ft' = tree_add fam (genus_of species) species ft.
Proof.
  rewrite place_eq.
  destruct (genus_to_family t !! genus_of species); naive_solver.
Qed.

(** The cells of the tree once the loop of lines 115-118 has run over [l]:
    a name sits in the cell of its derived genus and of that genus's
    family, and nowhere else. *)
Lemma build_cells t l ft0 ft :
  for_each l (place t) ft0 = Ok ft →
  ∀ fam genus s,
    in_cell ft fam genus s ↔
    in_cell ft0 fam genus s ∨
    (s ∈ l ∧ genus_of s = genus ∧ genus_to_family t !! genus = Some fam).
Proof.
  apply (for_each_ind (λ seen ft, ∀ fam genus s,
    in_cell ft fam genus s ↔
    in_cell ft0 fam genus s ∨
    (s ∈ seen ∧ genus_of s = genus ∧ genus_to_family t !! genus = Some fam))).
  - intros fam genus s. rewrite elem_of_nil. tauto.
  - intros seen x ft1 ft2 IH _ (f & Hf & ->)%place_Ok fam genus s.
    rewrite in_cell_tree_add, IH, elem_of_app, list_elem_of_singleton.
    split.
    + intros [[?|(? & ? & ?)]|(-> & -> & ->)]; auto 10.
    + intros [?|([?| ->] & <- & Hg)]; auto 10.
      right. rewrite Hf in Hg. injection Hg as <-. done.
Qed.

(** The loop completes when every genus it looks up is mapped ... *)
Lemma build_total t l ft0 :
  (∀ s, s ∈ l → is_Some (genus_to_family t !! genus_of s)) →
  ∃ ft, for_each l (place t) ft0 = Ok ft.
Proof.
  revert ft0. induction l as [|x l IH]; intros ft0 Hall; simpl; [by eexists|].
  destruct (Hall x) as [f Hf]; [by left|].
  rewrite place_eq, Hf; simpl.
  apply IH. intros s Hs. apply Hall. by right.
Qed.

(** ... and raises [KeyError], on an unmapped genus of [l], otherwise. *)
Lemma build_raises t l ft0 s :
  s ∈ l → genus_to_family t !! genus_of s = None →
  ∃ s', s' ∈ l ∧ genus_to_family t !! genus_of s' = None ∧
        for_each l (place t) ft0 = Raise (KeyError (genus_of s')).
Proof.
  revert ft0. induction l as [|x l IH]; intros ft0 Hs Hnone.
  - by apply elem_of_nil in Hs.
  - simpl. rewrite place_eq.
    destruct (genus_to_family t !! genus_of x) as [f|] eqn:Hx; simpl.
    + apply elem_of_cons in Hs as [->|Hs]; [congruence|].
      destruct (IH (tree_add f (genus_of x) x ft0) Hs Hnone)
        as (s' & Hs' & Hn' & Hrun).
      exists s'. split; [by right | done].
    + exists x. split; [by left | done].
Qed.

Lemma build_Ok_mapped t l ft0 ft :
  for_each l (place t) ft0 = Ok ft →
  ∀ s, s ∈ l → is_Some (genus_to_family t !! genus_of s).
Proof.
  intros Hrun s Hs.
  destruct (genus_to_family t !! genus_of s) eqn:E; [by eexists|].
  destruct (build_raises t l ft0 s Hs E) as (? & _ & _ & H). congruence.
Qed.
End Tree.

Section Construction.
Implicit Types (cp : CalscapePlants) (t : InatPlantTaxa)
  (self : CalscapeGeophytes).

Lemma init_Ok cp t self :
  CalscapeGeophytes_init cp t = Ok self ↔
  ∃ ft, for_each (elements (geophytes (select cp t))) (place t) ∅ = Ok ft ∧
        self = set_family_tree ft (select cp t).
Proof.
  unfold CalscapeGeophytes_init.
  destruct (for_each _ _ _) as [ft|e]; simpl; naive_solver.
Qed.

Lemma set_family_tree_fields ft self :
  calscape_plants (set_family_tree ft self) = calscape_plants self ∧
  inat_taxa (set_family_tree ft self) = inat_taxa self ∧
  calscape_genuses (set_family_tree ft self) = calscape_genuses self ∧
  geophytes (set_family_tree ft self) = geophytes self ∧
  family_tree (set_family_tree ft self) = ft.
Proof. done. Qed.

Lemma init_fields cp t self :
  CalscapeGeophytes_init cp t = Ok self →
  calscape_plants self = cp ∧ inat_taxa self = t ∧
  calscape_genuses self = genuses cp ∧
  geophytes self = geophytes (select cp t).
Proof.
  intros (ft & _ & ->)%init_Ok.
  destruct (select_built_on cp t) as (H1 & H2 & H3).
  destruct (set_family_tree_fields ft (select cp t))
    as (-> & -> & -> & -> & _).
  split; [exact H1|]. split; [exact H2|]. split; [exact H3|]. reflexivity.
Qed.

(** The cells of the tree of a constructed object. *)
Lemma init_cells cp t self :
  CalscapeGeophytes_init cp t = Ok self →
  ∀ fam genus s,
    in_cell (family_tree self) fam genus s ↔
    s ∈ geophytes self ∧ genus_of s = genus ∧
    genus_to_family t !! genus = Some fam.
Proof.
  intros (ft & Hrun & ->)%init_Ok fam genus s.
  destruct (set_family_tree_fields ft (select cp t))
    as (_ & _ & _ & -> & ->).
  rewrite (build_cells _ _ _ _ Hrun), elem_of_elements.
  pose proof (in_cell_empty fam genus s). tauto.
Qed.
End Construction.

(** ** The rows of the report *)

Section LoopShapes.
Context {A B S : Type}.

Lemma for_each_ext (l : list A) (body1 body2 : A → S → result S) s :
  (∀ x s, body1 x s = body2 x s) →
  for_each l body1 s = for_each l body2 s.
Proof.
  intros Hext. revert s. induction l as [|x l IH]; intros s; simpl; [done|].
  rewrite Hext. destruct (body2 x s); simpl; auto.
Qed.

Lemma for_each_bind (l : list A) (f : A → list B)
    (body : B → S → result S) s :
  for_each (l ≫= f) body s = for_each l (λ x s, for_each (f x) body s) s.
Proof.
  revert s. induction l as [|x l IH]; intros s; [done|].
  rewrite bind_cons, for_each_app. simpl.
  destruct (for_each (f x) body s); simpl; auto.
Qed.

Lemma for_each_fmap (l : list A) (f : A → B) (body : B → S → result S) s :
  for_each (f <$> l) body s = for_each l (λ x s, body (f x) s) s.
Proof.
  revert s. induction l as [|x l IH]; intros s; simpl; [done|].
  destruct (body (f x) s); simpl; auto.
Qed.
End LoopShapes.

Lemma elem_of_keys {V} (d : gmap string V) k : k ∈ keys d ↔ is_Some (d !! k).
Proof.
  unfold keys. rewrite list_elem_of_fmap. split.
  - intros ([k' v] & -> & Hin). apply elem_of_map_to_list in Hin.
    by eexists.
  - intros [v Hv]. exists (k, v). split; [done|].
    by apply elem_of_map_to_list.
Qed.

Lemma NoDup_keys {V} (d : gmap string V) : NoDup (keys d).
Proof. apply NoDup_fst_map_to_list. Qed.

Section Triples.
Implicit Types (ft : gmap string (gmap string (gset string))).

Lemma elem_of_species_triples ft fam genus tr :
  tr ∈ species_triples ft fam genus ↔
  tr.1.1 = fam ∧ tr.1.2 = genus ∧
  tr.2 ∈ default ∅ (default ∅ (ft !! fam) !! genus).
Proof.
  unfold species_triples. rewrite list_elem_of_fmap.
  setoid_rewrite elem_of_sorted. setoid_rewrite elem_of_elements.
  destruct tr as [[f g] s]; simpl. naive_solver.
Qed.

Lemma elem_of_genus_triples ft fam tr :
  tr ∈ genus_triples ft fam ↔ tr.1.1 = fam ∧ in_cell ft fam tr.1.2 tr.2.
Proof.
  unfold genus_triples. rewrite list_elem_of_bind.
  setoid_rewrite elem_of_species_triples.
  setoid_rewrite elem_of_sorted. setoid_rewrite elem_of_keys.
  rewrite in_cell_default. split.
  - intros (g & (? & <- & ?) & _). done.
  - intros (? & Hs). exists tr.1.2. split; [done|].
    destruct (default ∅ (ft !! fam) !! tr.1.2) eqn:E; [by eexists|].
    simpl in Hs. set_solver.
Qed.

Lemma elem_of_csv_triples ft tr :
  tr ∈ csv_triples ft ↔ in_cell ft tr.1.1 tr.1.2 tr.2.
Proof.
  unfold csv_triples. rewrite list_elem_of_bind.
  setoid_rewrite elem_of_genus_triples.
  setoid_rewrite elem_of_sorted. setoid_rewrite elem_of_keys.
  split.
  - by intros (f & (<- & ?) & _).
  - intros Hc. exists tr.1.1. split; [done|].
    destruct Hc as (m & _ & -> & _). by eexists.
Qed.

Lemma NoDup_csv_triples ft : NoDup (csv_triples ft).
Proof.
  unfold csv_triples. apply NoDup_bind.
  - intros f1 f2 tr _ _ [<- _]%elem_of_genus_triples
      [<- _]%elem_of_genus_triples. done.
  - intros f _. unfold genus_triples. apply NoDup_bind.
    + intros g1 g2 tr _ _ (_ & <- & _)%elem_of_species_triples
        (_ & <- & _)%elem_of_species_triples. done.
    + intros g _. unfold species_triples. apply NoDup_fmap_2.
      * intros ?? [= ->]. done.
      * apply sorted_NoDup, NoDup_elements.
    + apply sorted_NoDup, NoDup_keys.
  - apply sorted_NoDup, NoDup_keys.
Qed.

(** Concatenating sorted blocks, taken in a sorted order of their labels,
    gives a sorted list. *)
Lemma StronglySorted_bind {A B} (RA : relation A) (RB : relation B)
    (f : A → list B) (l : list A) :
  StronglySorted RA l →
  (∀ x, x ∈ l → StronglySorted RB (f x)) →
  (∀ x x' y y', RA x x' → y ∈ f x → y' ∈ f x' → RB y y') →
  StronglySorted RB (l ≫= f).
Proof.
  intros Hl Hin Hcross. induction Hl as [|x l Hl IH Hx]; [constructor|].
  rewrite bind_cons. apply StronglySorted_app_2.
  - intros y y' Hy (x' & Hy' & Hx')%list_elem_of_bind.
    rewrite Forall_forall in Hx. eapply Hcross; eauto.
  - apply Hin. by left.
  - apply IH. intros x' Hx'. apply Hin. by right.
Qed.

Lemma StronglySorted_csv_triples ft : StronglySorted triple_lt (csv_triples ft).
Proof.
  unfold csv_triples.
  apply (StronglySorted_bind str_lt); [apply sorted_strict, NoDup_keys | |].
  - intros f _. unfold genus_triples.
    apply (StronglySorted_bind str_lt); [apply sorted_strict, NoDup_keys | |].
    + intros g _. unfold species_triples.
      apply (StronglySorted_fmap _ str_lt);
        [|apply sorted_strict, NoDup_elements].
      intros x y Hxy. right. split; [done|]. right. done.
    + intros g g' tr tr' Hlt (E1 & <- & _)%elem_of_species_triples
        (E1' & <- & _)%elem_of_species_triples.
      right. split; [congruence|]. by left.
  - intros f f' tr tr' Hlt [<- _]%elem_of_genus_triples
      [<- _]%elem_of_genus_triples. by left.
Qed.
End Triples.

Section Rows.
Implicit Types (cp : CalscapePlants) (self : CalscapeGeophytes)
  (rows : list Row) (l : list triple).

Lemma csv_rows_triples self ex :
  csv_rows self ex =
  for_each (csv_triples (family_tree self)) (emit (calscape_plants self) ex) [].
Proof.
  unfold csv_rows, csv_triples. rewrite for_each_bind.
  apply for_each_ext; intros fam rows.
  unfold genus_triples. rewrite for_each_bind.
  apply for_each_ext; intros genus rows'.
  unfold species_triples. rewrite for_each_fmap.
  by apply for_each_ext.
Qed.

Lemma emit_Ok cp ex tr rows rows' :
  emit cp ex tr rows = Ok rows' →
  (¬ kept ex tr ∧ rows' = rows) ∨
  (kept ex tr ∧ ∃ r, rows' = rows ++ [r] ∧ row_key r = tr ∧
                     row_looked_up cp r).
Proof.
  unfold emit, kept. destruct (ex && is_cultivar tr.2).
  { intros [= <-]. by left. }
  unfold common_name_for_species, url_for_species, lookup_key.
  destruct (species_to_common_name cp !! Some tr.2) as [cn|] eqn:Hcn;
    simpl; [|done].
  destruct (species_to_url cp !! Some tr.2) as [url|] eqn:Hurl;
    simpl; [|done].
  intros [= <-]. right. split; [done|]. eexists. split; [done|].
  split; [by destruct tr as [[f g] s] | by split].
Qed.

(** What a completed run of the loops has appended. *)
Lemma emit_loop_Ok cp ex l rows0 rows :
  for_each l (emit cp ex) rows0 = Ok rows →
  ∃ rs, rows = rows0 ++ rs ∧ row_key <$> rs = filter (kept ex) l ∧
        Forall (row_looked_up cp) rs.
Proof.
  revert rows0. induction l as [|tr l IH]; intros rows0; simpl.
  - intros [= <-]. exists []. by rewrite app_nil_r.
  - destruct (emit cp ex tr rows0) as [rows1|] eqn:E; simpl; [|done].
    intros (rs & -> & Hk & Hl)%IH.
    apply emit_Ok in E as [[Hn ->]|(Hy & r & -> & Hr & Hc)].
    + exists rs. by rewrite filter_cons_False.
    + exists (r :: rs). rewrite <- app_assoc. split; [done|].
      rewrite filter_cons_True by done. rewrite fmap_cons, Hk, Hr.
      split; [done | by constructor].
Qed.

(** The loops complete when every name they let through is a key of both
    dictionaries. *)
Lemma emit_loop_total cp ex l rows0 :
  (∀ tr, tr ∈ l → kept ex tr →
     is_Some (species_to_common_name cp !! Some tr.2) ∧
     is_Some (species_to_url cp !! Some tr.2)) →
  ∃ rows, for_each l (emit cp ex) rows0 = Ok rows.
Proof.
  revert rows0. induction l as [|tr l IH]; intros rows0 Hall; simpl.
  - by eexists.
  - assert (∃ rows1, emit cp ex tr rows0 = Ok rows1) as [rows1 ->].
    { unfold emit. destruct (ex && is_cultivar tr.2) eqn:E; [by eexists|].
      destruct (Hall tr) as [[cn Hcn] [url Hurl]]; [by left|done|].
      unfold common_name_for_species, url_for_species, lookup_key.
      rewrite Hcn, Hurl. simpl. by eexists. }
    simpl. apply IH. intros tr' Hin. apply Hall. by right.
Qed.

Lemma csv_rows_Ok self ex rows :
  csv_rows self ex = Ok rows →
  row_key <$> rows = filter (kept ex) (csv_triples (family_tree self)) ∧
  Forall (row_looked_up (calscape_plants self)) rows.
Proof.
  rewrite csv_rows_triples. intros (rs & -> & H)%emit_loop_Ok. done.
Qed.

Lemma StronglySorted_filter {A} (R : relation A) (P : A → Prop)
    `{∀ x, Decision (P x)} (l : list A) :
  StronglySorted R l → StronglySorted R (filter P l).
Proof.
  induction 1 as [|x l Hl IH Hx]; [constructor|].
  rewrite filter_cons. case_decide; [|done].
  constructor; [done|]. rewrite Forall_forall in Hx |- *.
  intros y [_ Hy]%list_elem_of_filter. by apply Hx.
Qed.

Lemma StronglySorted_fmap_inv {A B} (f : A → B) (R : relation B)
    (l : list A) :
  StronglySorted R (f <$> l) → StronglySorted (λ x y, R (f x) (f y)) l.
Proof.
  induction l as [|x l IH]; [constructor|].
  rewrite fmap_cons. intros [Hx Hl]%StronglySorted_cons.
  constructor; [by apply IH|]. by rewrite Forall_fmap in Hx.
Qed.
End Rows.

(** ** The tree as a partition *)

Section Partition.
Implicit Types (ft : gmap string (gmap string (gset string))).

Lemma elem_of_tree_species ft s :
  s ∈ tree_species ft ↔ ∃ fam genus, in_cell ft fam genus s.
Proof.
  unfold tree_species, in_cell. rewrite list_elem_of_bind. split.
  - intros ([fam m] & Hs & Hm). apply elem_of_map_to_list in Hm.
    apply list_elem_of_bind in Hs as ([genus S] & Hs & HS).
    apply elem_of_map_to_list in HS. apply elem_of_elements in Hs. eauto 10.
  - intros (fam & genus & m & S & Hm & HS & Hs). exists (fam, m).
    split; [|by apply elem_of_map_to_list].
    apply list_elem_of_bind. exists (genus, S).
    split; [by apply elem_of_elements | by apply elem_of_map_to_list].
Qed.

(** When no name sits in two cells, listing the cells repeats no name. *)
Lemma NoDup_tree_species ft :
  (∀ f g f' g' s, in_cell ft f g s → in_cell ft f' g' s → f = f' ∧ g = g') →
  NoDup (tree_species ft).
Proof.
  intros Huniq. unfold tree_species. apply NoDup_bind.
  - intros [f m] [f' m'] s Hm Hm' Hs Hs'.
    apply elem_of_map_to_list in Hm, Hm'.
    apply list_elem_of_bind in Hs as ([g S] & Hs & HS).
    apply list_elem_of_bind in Hs' as ([g' S'] & Hs' & HS').
    apply elem_of_map_to_list in HS, HS'. apply elem_of_elements in Hs, Hs'.
    destruct (Huniq f g f' g' s) as [<- _]; [unfold in_cell; eauto 10..|].
    simpl in *. congruence.
  - intros [f m] Hm. apply elem_of_map_to_list in Hm. apply NoDup_bind.
    + intros [g S] [g' S'] s HS HS' Hs Hs'.
      apply elem_of_map_to_list in HS, HS'. apply elem_of_elements in Hs, Hs'.
      destruct (Huniq f g f g' s) as [_ <-]; [unfold in_cell; eauto 10..|].
      simpl in *. congruence.
    + intros [g S] _. apply NoDup_elements.
    + apply NoDup_map_to_list.
  - apply NoDup_map_to_list.
Qed.

Lemma init_cell_unique cp t self f g f' g' s :
  CalscapeGeophytes_init cp t = Ok self →
  in_cell (family_tree self) f g s → in_cell (family_tree self) f' g' s →
  f = f' ∧ g = g'.
Proof.
  intros Hinit (_ & <- & Hf)%(init_cells _ _ _ Hinit)
    (_ & <- & Hf')%(init_cells _ _ _ Hinit).
  split; [congruence | done].
Qed.

Lemma init_geophyte_placed cp t self s :
  CalscapeGeophytes_init cp t = Ok self → s ∈ geophytes self →
  ∃ fam, genus_to_family t !! genus_of s = Some fam ∧
         in_cell (family_tree self) fam (genus_of s) s.
Proof.
  intros Hinit Hs. pose proof Hinit as (ft & Hrun & ->)%init_Ok.
  destruct (set_family_tree_fields ft (select cp t)) as (_ & _ & _ & Hg & _).
  rewrite Hg in Hs.
  destruct (build_Ok_mapped _ _ _ _ Hrun s) as [fam Hfam];
    [by apply elem_of_elements|].
  exists fam. split; [done|]. apply (init_cells _ _ _ Hinit).
  by rewrite Hg.
Qed.

(** Construction raises on an unmapped genus of the selection. *)
Lemma init_raises_unmapped cp t s :
  s ∈ geophytes (select cp t) → genus_to_family t !! genus_of s = None →
  ∃ s', s' ∈ geophytes (select cp t) ∧
        genus_to_family t !! genus_of s' = None ∧
        CalscapeGeophytes_init cp t = Raise (KeyError (genus_of s')).
Proof.
  intros Hs Hnone.
  destruct (build_raises t (elements (geophytes (select cp t))) ∅ s)
    as (s' & Hs' & Hnone' & Hrun); [by apply elem_of_elements|done|].
  exists s'. split; [by apply elem_of_elements in Hs'|]. split; [done|].
  unfold CalscapeGeophytes_init. by rewrite Hrun.
Qed.
End Partition.

(** C1.  Once construction has completed (every genus lookup of the tree
    loop found its family), the family tree partitions the geophyte set:
    each geophyte is in one cell [family_tree[fam][genus]] and in no other,
    each name in a cell is a geophyte, and the cells listed one after the
    other give the geophyte set with nothing lost and nothing repeated. *)
Theorem family_tree_partitions_geophytes cp t self :
  CalscapeGeophytes_init cp t = Ok self →
  (∀ s, s ∈ geophytes self →
     ∃ fam genus, in_cell (family_tree self) fam genus s ∧
       ∀ fam' genus', in_cell (family_tree self) fam' genus' s →
                      fam' = fam ∧ genus' = genus) ∧
  (∀ fam genus s, in_cell (family_tree self) fam genus s → s ∈ geophytes self) ∧
  tree_species (family_tree self) ≡ₚ elements (geophytes self).
Proof.
  intros Hinit. split_and!.
  - intros s Hs.
    destruct (init_geophyte_placed _ _ _ _ Hinit Hs) as (fam & _ & Hc).
    exists fam, (genus_of s). split; [done|]. intros fam' genus' Hc'.
    by apply (init_cell_unique _ _ _ _ _ _ _ _ Hinit Hc' Hc).
  - intros fam genus s Hc. by apply (init_cells _ _ _ Hinit) in Hc as [? _].
  - apply NoDup_Permutation.
    + apply NoDup_tree_species. intros f g f' g' s.
      apply (init_cell_unique _ _ _ _ _ _ _ _ Hinit).
    + apply NoDup_elements.
    + intros s. rewrite elem_of_tree_species, elem_of_elements. split.
      * intros (fam & genus & Hc).
        by apply (init_cells _ _ _ Hinit) in Hc as [? _].
      * intros Hs.
        destruct (init_geophyte_placed _ _ _ _ Hinit Hs) as (fam & _ & Hc).
        eauto.
Qed.

Lemma family_tree_partitions_geophytes_witness :
  CalscapeGeophytes_init Sample.plants Sample.taxa = Ok Sample.object ∧
  tree_species (family_tree Sample.object) ≡ₚ elements (geophytes Sample.object).
Proof.
  assert (H : CalscapeGeophytes_init Sample.plants Sample.taxa
              = Ok Sample.object) by (vm_compute; reflexivity).
  split; [exact H|].
  apply (family_tree_partitions_geophytes Sample.plants Sample.taxa
           Sample.object H).
Defined.

(** C2, as the claim states it, fails: read with the first
    whitespace-delimited token as the derived genus, the claim has
    [add_family] add a name that starts with a space under the genus that
    follows the space, while the code files that name under the empty genus
    and leaves it out. *)
Lemma add_family_misses_spaced_name :
  CalscapePlants_of_columns Sample.spaced_species Sample.spaced_common_names
    Sample.spaced_urls = Ok Sample.spaced_plants ∧
  built_on Sample.spaced_plants Sample.spaced_taxa Sample.spaced_fresh ∧
  Some " Calochortus venustus" ∈ Sample.spaced_species ∧
  first_whitespace_token " Calochortus venustus" = "Calochortus" ∧
  "Calochortus" ∈ genuses Sample.spaced_plants ∩
                  genuses_for_family Sample.spaced_taxa "Liliaceae" ∧
  (" Calochortus venustus" ∉
     geophytes (add_family "Liliaceae" Sample.spaced_fresh)) ∧
  ¬ (∀ species common_names urls cp t self fam,
       CalscapePlants_of_columns species common_names urls = Ok cp →
       built_on cp t self →
       ∀ s, s ∈ geophytes (add_family fam self) ↔
            s ∈ geophytes self ∨
            (Some s ∈ species ∧
             first_whitespace_token s ∈
               genuses cp ∩ genuses_for_family t fam)).
Proof.
  assert (H : CalscapePlants_of_columns Sample.spaced_species
                Sample.spaced_common_names Sample.spaced_urls
              = Ok Sample.spaced_plants) by (vm_compute; reflexivity).
  assert (B : built_on Sample.spaced_plants Sample.spaced_taxa
                Sample.spaced_fresh) by (repeat split).
  assert (Hcol : Some " Calochortus venustus" ∈ Sample.spaced_species)
    by (right; left).
  assert (Htok : first_whitespace_token " Calochortus venustus"
                 = "Calochortus") by reflexivity.
  assert (Hgen : "Calochortus" ∈ genuses Sample.spaced_plants ∩
                   genuses_for_family Sample.spaced_taxa "Liliaceae")
    by (vm_compute; reflexivity).
  assert (Hout : " Calochortus venustus" ∉
                   geophytes (add_family "Liliaceae" Sample.spaced_fresh)).
  { intros Hin. vm_compute in Hin. discriminate Hin. }
  split_and!; [done..|].
  intros Hclaim. apply Hout.
  apply (Hclaim _ _ _ _ _ _ "Liliaceae" H B). right. split; [done|].
  rewrite Htok. exact Hgen.
Qed.

(** C2, amended.  [add_family fam] adds to the geophyte set exactly the
    names of the Botanical Name column whose derived genus, the piece of the
    name before its first space as [x.split(" ")[0]] gives it, is both a
    genus of the source table and a genus the taxonomy reference lists
    under [fam]; the set afterwards is the set before united with those
    names, and nothing else of the object changes. *)
Theorem add_family_adds_exactly species common_names urls cp t self fam :
  CalscapePlants_of_columns species common_names urls = Ok cp →
  built_on cp t self →
  (∀ s, s ∈ geophytes (add_family fam self) ↔
        s ∈ geophytes self ∨
        (Some s ∈ species ∧
         genus_of s ∈ genuses cp ∩ genuses_for_family t fam)) ∧
  built_on cp t (add_family fam self) ∧
  family_tree (add_family fam self) = family_tree self.
Proof.
  intros Hcp Hb. split_and!.
  - intros s. rewrite elem_of_add_family.
    destruct Hb as (-> & -> & ->).
    setoid_rewrite (elem_of_species_for_genus _ _ _ _ _ _ Hcp).
    split.
    + intros [?|(genus & ? & ? & ->)]; auto.
    + intros [?|[? ?]]; [by left|]. right. by exists (genus_of s).
  - by apply add_family_built_on.
  - by rewrite add_family_eq.
Qed.

Lemma add_family_adds_exactly_witness :
  CalscapePlants_of_columns Sample.species Sample.common_names Sample.urls
    = Ok Sample.plants ∧
  built_on Sample.plants Sample.taxa Sample.fresh ∧
  "Calochortus albus" ∈ geophytes (add_family "Liliaceae" Sample.fresh) ∧
  "Quercus agrifolia" ∉ geophytes (add_family "Liliaceae" Sample.fresh).
Proof.
  assert (H : CalscapePlants_of_columns Sample.species Sample.common_names
                Sample.urls = Ok Sample.plants) by (vm_compute; reflexivity).
  assert (B : built_on Sample.plants Sample.taxa Sample.fresh)
    by (repeat split).
  destruct (add_family_adds_exactly _ _ _ _ _ _ "Liliaceae" H B) as (E & _ & _).
  split; [exact H|]. split; [exact B|]. split.
  - apply E. right. split; [|vm_compute; reflexivity].
    do 4 right. left.
  - intros [Hin|[_ Hin]]%E; vm_compute in Hin; discriminate Hin.
Defined.

(** C3.  [add_genus genus] adds every source species stored under [genus]
    to the geophyte set, whatever the taxonomy reference [t] holds: the set
    afterwards is the set before united with [species_for_genus], which for
    a loaded table is the set of names of the Botanical Name column whose
    derived genus is [genus]; a genus without source species leaves the set
    as it was; and every genus of the static lists (the two subfamily lists
    and "Allium") has all its source species in the selection of
    [__init__]. *)
Theorem add_genus_adds_all cp t cg geo ft genus :
  geophytes (add_genus genus
    {| calscape_plants := cp; inat_taxa := t; calscape_genuses := cg;
       geophytes := geo; family_tree := ft |})
    = geo ∪ species_for_genus cp genus ∧
  (species_for_genus cp genus = ∅ →
   add_genus genus
     {| calscape_plants := cp; inat_taxa := t; calscape_genuses := cg;
        geophytes := geo; family_tree := ft |}
   = {| calscape_plants := cp; inat_taxa := t; calscape_genuses := cg;
        geophytes := geo; family_tree := ft |}) ∧
  (∀ species common_names urls s,
     CalscapePlants_of_columns species common_names urls = Ok cp →
     s ∈ species_for_genus cp genus ↔ Some s ∈ species ∧ genus_of s = genus) ∧
  (genus ∈ BRODIAE_SUBFAMILY_GENUSES ++
           "Allium" :: AGAVE_SUBFAMILY_GEOPHYTE_GENUSES →
   species_for_genus cp genus ⊆ geophytes (select cp t)).
Proof.
  split_and!.
  - done.
  - intros Hnone. unfold add_genus, set_geophytes; simpl.
    rewrite Hnone. f_equal. set_solver.
  - intros species common_names urls s Hcp.
    apply (elem_of_species_for_genus _ _ _ _ _ _ Hcp).
  - intros Hin s Hs. apply elem_of_select. exists genus. split; [|done].
    unfold included. apply elem_of_app in Hin as [Hin|Hin]; [by left|].
    apply elem_of_cons in Hin as [->|Hin]; [right; by left|].
    right; right; by left.
Qed.

Lemma add_genus_adds_all_witness :
  species_for_genus Sample.plants "Triteleia" = ∅ ∧
  add_genus "Triteleia" Sample.fresh = Sample.fresh ∧
  "Brodiaea elegans" ∈
    geophytes (select Sample.plants (InatPlantTaxa_init [])).
Proof.
  assert (H : species_for_genus Sample.plants "Triteleia" = ∅)
    by (vm_compute; reflexivity).
  split; [exact H|]. split.
  - apply (add_genus_adds_all Sample.plants Sample.taxa
             (genuses Sample.plants) ∅ ∅ "Triteleia"), H.
  - apply (add_genus_adds_all Sample.plants (InatPlantTaxa_init [])
             ∅ ∅ ∅ "Brodiaea").
    + do 3 right. left.
    + vm_compute. reflexivity.
Defined.

(** C4.  The tree loop of [__init__] is fatal on an unmapped genus and on
    nothing else: when some selected species has a derived genus that
    [genus_to_family] lacks, construction raises [KeyError] on such a genus
    and yields no object; when every selected species has a mapped genus,
    construction completes, keeps the selected set and places every one of
    its species in the tree. *)
Theorem init_raises_iff_unmapped cp t :
  ((∃ s, s ∈ geophytes (select cp t) ∧
         genus_to_family t !! genus_of s = None) →
   ∃ s, s ∈ geophytes (select cp t) ∧
        genus_to_family t !! genus_of s = None ∧
        CalscapeGeophytes_init cp t = Raise (KeyError (genus_of s))) ∧
  ((∀ s, s ∈ geophytes (select cp t) →
         is_Some (genus_to_family t !! genus_of s)) →
   ∃ self, CalscapeGeophytes_init cp t = Ok self ∧
           geophytes self = geophytes (select cp t) ∧
           ∀ s, s ∈ geophytes (select cp t) →
                ∃ fam, in_cell (family_tree self) fam (genus_of s) s).
Proof.
  split.
  - intros (s & Hs & Hnone). by apply (init_raises_unmapped cp t s).
  - intros Hall.
    destruct (build_total t (elements (geophytes (select cp t))) ∅)
      as [ft Hrun].
    { intros s Hs. apply Hall. by apply elem_of_elements in Hs. }
    assert (Hinit : CalscapeGeophytes_init cp t
                    = Ok (set_family_tree ft (select cp t))).
    { unfold CalscapeGeophytes_init. by rewrite Hrun. }
    eexists. split; [exact Hinit|].
    destruct (init_fields _ _ _ Hinit) as (_ & _ & _ & Hg).
    split; [exact Hg|]. intros s Hs. rewrite <- Hg in Hs.
    destruct (init_geophyte_placed _ _ _ _ Hinit Hs) as (fam & _ & Hc).
    by exists fam.
Qed.

Lemma init_raises_iff_unmapped_witness :
  (∃ s, CalscapeGeophytes_init Sample.plants
          (InatPlantTaxa_init [Sample.taxon "Asparagaceae" "Brodiaea"])
        = Raise (KeyError (genus_of s))) ∧
  (∃ self, CalscapeGeophytes_init Sample.plants Sample.taxa = Ok self).
Proof.
  split.
  - destruct (init_raises_iff_unmapped Sample.plants
      (InatPlantTaxa_init [Sample.taxon "Asparagaceae" "Brodiaea"]))
      as [Hraise _].
    destruct Hraise as (s & _ & _ & H).
    + exists "Camassia quamash 'Orion'". split; vm_compute; reflexivity.
    + by exists s.
  - destruct (init_raises_iff_unmapped Sample.plants Sample.taxa)
      as [_ Hok].
    destruct Hok as (self & H & _).
    + apply (bool_decide_unpack (set_Forall
        (λ s, is_Some (genus_to_family Sample.taxa !! genus_of s))
        (geophytes (select Sample.plants Sample.taxa)))).
      vm_compute. exact I.
    + by exists self.
Defined.

(** ** The report *)

Section Report.
Implicit Types (cp : CalscapePlants) (t : InatPlantTaxa)
  (self : CalscapeGeophytes) (rows : list Row).

Lemma length_filter_kept (l : list triple) :
  length (filter (kept true) l) =
  length (filter (λ x, is_cultivar x = false) l.*2).
Proof.
  induction l as [|tr l IH]; [done|].
  rewrite fmap_cons, !filter_cons. unfold kept in *; simpl in *.
  repeat case_decide; simpl; congruence.
Qed.

Lemma filter_all {A} (P : A → Prop) `{∀ x, Decision (P x)} (l : list A) :
  (∀ x, x ∈ l → P x) → filter P l = l.
Proof.
  induction l as [|x l IH]; intros Hall; [done|].
  rewrite filter_cons_True by (apply Hall; by left).
  f_equal. apply IH. intros y Hy. apply Hall. by right.
Qed.

(** The species column of the positions visited is the geophyte set. *)
Lemma init_triples_species cp t self :
  CalscapeGeophytes_init cp t = Ok self →
  (csv_triples (family_tree self)).*2 ≡ₚ elements (geophytes self).
Proof.
  intros Hinit. apply NoDup_Permutation.
  - apply NoDup_fmap_2_strong; [|apply NoDup_csv_triples].
    intros [[f g] s] [[f' g'] s'] Hc%elem_of_csv_triples
      Hc'%elem_of_csv_triples Heq. simpl in *. subst s'.
    by destruct (init_cell_unique _ _ _ _ _ _ _ _ Hinit Hc Hc') as [-> ->].
  - apply NoDup_elements.
  - intros s. rewrite list_elem_of_fmap, elem_of_elements. split.
    + intros (tr & -> & Hc%elem_of_csv_triples).
      by apply (init_cells _ _ _ Hinit) in Hc as [? _].
    + intros Hs.
      destruct (init_geophyte_placed _ _ _ _ Hinit Hs) as (fam & _ & Hc).
      exists (fam, genus_of s, s). split; [done|].
      by apply elem_of_csv_triples.
Qed.

Lemma write_csv_rows self path ex fs rows :
  csv_rows self ex = Ok rows →
  write_csv self path ex fs =
    Ok (match rows with
        | [] => fs
        | _ :: _ =>
            <[path := {| fieldnames :=
                           ["family"; "genus"; "species"; "common_name"; "url"];
                         records := rows |}]> fs
        end).
Proof. unfold write_csv. intros ->. simpl. by destruct rows. Qed.

(** With nothing let through, the loops append nothing and look nothing
    up. *)
Lemma emit_loop_skips cp ex (l : list triple) rows0 :
  (∀ tr, tr ∈ l → ¬ kept ex tr) → for_each l (emit cp ex) rows0 = Ok rows0.
Proof.
  induction l as [|tr l IH]; intros Hall; [done|]. simpl.
  assert (emit cp ex tr rows0 = Ok rows0) as ->.
  { unfold emit. specialize (Hall tr). unfold kept in Hall.
    destruct (ex && is_cultivar tr.2); [done|].
    exfalso. apply Hall; [by left | done]. }
  simpl. apply IH. intros tr' Hin. apply Hall. by right.
Qed.
End Report.

(** C5.  Whatever the family tree and the value of [exclude_cultivars], the
    rows [write_csv] computes are in strictly ascending order of family,
    then of genus within a family, then of species within a genus, each
    compared as strings. *)
Theorem csv_rows_sorted self exclude_cultivars rows :
  csv_rows self exclude_cultivars = Ok rows →
  StronglySorted row_lt rows.
Proof.
  intros [Hkeys _]%csv_rows_Ok.
  apply (StronglySorted_fmap_inv row_key triple_lt). rewrite Hkeys.
  apply StronglySorted_filter, StronglySorted_csv_triples.
Qed.

Lemma csv_rows_sorted_witness :
  csv_rows Sample.object false = Ok Sample.report ∧
  length Sample.report = 4 ∧
  StronglySorted row_lt Sample.report.
Proof.
  assert (H : csv_rows Sample.object false = Ok Sample.report)
    by (vm_compute; reflexivity).
  split; [exact H|]. split; [vm_compute; reflexivity|].
  apply (csv_rows_sorted Sample.object false Sample.report H).
Defined.

(** C6.  For a constructed object, the rows computed with
    [exclude_cultivars] carry no name with an apostrophe and are as many as
    the non-cultivar count of the summary; the rows computed without it are
    as many as the geophyte count; so the flag removes exactly the
    difference of the two counts [print_summary] reports. *)
Theorem excluded_rows_count cp t self rows_all rows_kept :
  CalscapeGeophytes_init cp t = Ok self →
  csv_rows self false = Ok rows_all →
  csv_rows self true = Ok rows_kept →
  (∀ r, r ∈ rows_kept → is_cultivar (row_species r) = false) ∧
  length rows_all = num_geophytes (summary self) ∧
  length rows_kept = num_no_cultivars (summary self) ∧
  length rows_all - length rows_kept =
    num_geophytes (summary self) - num_no_cultivars (summary self).
Proof.
  intros Hinit [Hall _]%csv_rows_Ok [Hkept _]%csv_rows_Ok.
  pose proof (init_triples_species _ _ _ Hinit) as Hperm.
  assert (E1 : length rows_all = num_geophytes (summary self)).
  { rewrite <- (length_fmap row_key), Hall, filter_all by done.
    transitivity (length (csv_triples (family_tree self)).*2);
      [by rewrite length_fmap | by rewrite Hperm]. }
  assert (E2 : length rows_kept = num_no_cultivars (summary self)).
  { rewrite <- (length_fmap row_key), Hkept. simpl.
    rewrite <- Hperm. apply length_filter_kept. }
  split_and!; [|done|done|by rewrite E1, E2].
  intros r Hr.
  assert (Hk : row_key r ∈ filter (kept true) (csv_triples (family_tree self))).
  { rewrite <- Hkept. by apply list_elem_of_fmap_2. }
  by apply list_elem_of_filter in Hk as [Hk _].
Qed.

Lemma excluded_rows_count_witness :
  ∃ rows_kept,
    csv_rows Sample.object true = Ok rows_kept ∧
    length Sample.report - length rows_kept =
      num_geophytes (summary Sample.object)
      - num_no_cultivars (summary Sample.object) ∧
    length Sample.report - length rows_kept = 1.
Proof.
  exists (or_else [] (csv_rows Sample.object true)).
  assert (H0 : CalscapeGeophytes_init Sample.plants Sample.taxa
               = Ok Sample.object) by (vm_compute; reflexivity).
  assert (H1 : csv_rows Sample.object false = Ok Sample.report)
    by (vm_compute; reflexivity).
  assert (H2 : csv_rows Sample.object true
               = Ok (or_else [] (csv_rows Sample.object true)))
    by (vm_compute; reflexivity).
  split; [exact H2|]. split; [|vm_compute; reflexivity].
  apply (excluded_rows_count _ _ _ _ _ H0 H1 H2).
Defined.

Section Output.
Implicit Types (cp : CalscapePlants) (t : InatPlantTaxa)
  (self : CalscapeGeophytes).

Lemma init_triples_geophytes cp t self tr :
  CalscapeGeophytes_init cp t = Ok self →
  tr ∈ csv_triples (family_tree self) → tr.2 ∈ geophytes self.
Proof.
  intros Hinit Hc%elem_of_csv_triples.
  by apply (init_cells _ _ _ Hinit) in Hc as [? _].
Qed.

(** Every selected name was read from the Botanical Name column. *)
Lemma select_from_column species common_names urls cp t s :
  CalscapePlants_of_columns species common_names urls = Ok cp →
  s ∈ geophytes (select cp t) → Some s ∈ species.
Proof.
  intros Hcp (genus & _ & Hs)%elem_of_select.
  by apply (elem_of_species_for_genus _ _ _ _ _ _ Hcp) in Hs as [? _].
Qed.

Lemma lookup_key_Ok (d : gmap value value) k v :
  lookup_key d k = Ok v ↔ d !! Some k = Some v.
Proof. unfold lookup_key. destruct (d !! Some k); naive_solver. Qed.
End Output.

(** C7.  When the rows [write_csv] computes are none, no file is written and
    the file system is as it was, whatever the path: so it is for a
    constructed object without geophytes, and for one whose geophytes all
    carry the cultivar mark when [exclude_cultivars] is set. *)
Theorem write_csv_without_rows_writes_nothing path fs :
  (∀ self ex, csv_rows self ex = Ok [] → write_csv self path ex fs = Ok fs) ∧
  (∀ cp t self ex,
     CalscapeGeophytes_init cp t = Ok self → geophytes self = ∅ →
     write_csv self path ex fs = Ok fs) ∧
  (∀ cp t self,
     CalscapeGeophytes_init cp t = Ok self →
     (∀ s, s ∈ geophytes self → is_cultivar s = true) →
     write_csv self path true fs = Ok fs).
Proof.
  assert (G : ∀ self ex, csv_rows self ex = Ok [] →
                         write_csv self path ex fs = Ok fs).
  { intros self ex H. by rewrite (write_csv_rows _ _ _ _ _ H). }
  split; [exact G|]. split.
  - intros cp t self ex Hinit Hempty. apply G.
    rewrite csv_rows_triples. apply emit_loop_skips.
    intros tr Htr%(init_triples_geophytes _ _ _ _ Hinit).
    rewrite Hempty in Htr. by apply not_elem_of_empty in Htr.
  - intros cp t self Hinit Hall. apply G.
    rewrite csv_rows_triples. apply emit_loop_skips.
    intros tr Htr%(init_triples_geophytes _ _ _ _ Hinit). unfold kept.
    rewrite (Hall _ Htr). done.
Qed.

Lemma write_csv_without_rows_writes_nothing_witness :
  write_csv Sample.oak_only "out.csv" false ∅ = Ok ∅ ∧
  geophytes Sample.cultivars_only ≠ ∅ ∧
  write_csv Sample.cultivars_only "out.csv" true ∅ = Ok ∅.
Proof.
  destruct (write_csv_without_rows_writes_nothing "out.csv" ∅)
    as (_ & Hempty & Hcultivars).
  assert (H1 : CalscapeGeophytes_init Sample.oak_plants Sample.taxa
               = Ok Sample.oak_only) by (vm_compute; reflexivity).
  assert (E1 : geophytes Sample.oak_only = ∅) by (vm_compute; reflexivity).
  assert (H2 : CalscapeGeophytes_init Sample.cultivar_plants Sample.taxa
               = Ok Sample.cultivars_only) by (vm_compute; reflexivity).
  assert (E2 : ∀ s, s ∈ geophytes Sample.cultivars_only →
                    is_cultivar s = true).
  { apply (bool_decide_unpack (set_Forall (λ s, is_cultivar s = true)
             (geophytes Sample.cultivars_only))).
    vm_compute. exact I. }
  split_and!.
  - exact (Hempty _ _ _ false H1 E1).
  - vm_compute. discriminate.
  - exact (Hcultivars _ _ _ H2 E2).
Defined.

(** C8.  For a table loaded from a worksheet and an object constructed on
    it, [common_name_for_species] and [url_for_species] find every geophyte,
    so the rows of [write_csv] are computed without a [KeyError] and each
    row carries what the two dictionaries hold for its species: the three
    columns are read over one row range and the geophytes come from the
    Botanical Name column. *)
Theorem csv_lookups_succeed sheet cp t self exclude_cultivars :
  CalscapePlants_init sheet = Ok cp →
  CalscapeGeophytes_init cp t = Ok self →
  (∀ s, s ∈ geophytes self →
     ∃ cn url, common_name_for_species cp s = Ok cn ∧
               url_for_species cp s = Ok url) ∧
  (∃ rows, csv_rows self exclude_cultivars = Ok rows ∧
     ∀ r, r ∈ rows →
       common_name_for_species cp (row_species r) = Ok (row_common_name r) ∧
       url_for_species cp (row_species r) = Ok (row_url r)).
Proof.
  intros (species & cns & urls & Hcp & Hlen1 & Hlen2)%CalscapePlants_init_columns
    Hinit.
  destruct (init_fields _ _ _ Hinit) as (Hp & _ & _ & Hg).
  destruct (of_columns_fields _ _ _ _ Hcp) as (_ & Hurl & Hcn).
  assert (Hkeys : ∀ s, s ∈ geophytes self →
            is_Some (species_to_common_name cp !! Some s) ∧
            is_Some (species_to_url cp !! Some s)).
  { intros s Hs. rewrite Hg in Hs.
    apply (select_from_column _ _ _ _ _ _ Hcp) in Hs.
    rewrite Hurl, Hcn. split; apply dict_zip_is_Some; (lia || done). }
  split.
  - intros s [[cn Hc] [url Hu]]%Hkeys. exists cn, url.
    unfold common_name_for_species, url_for_species.
    by rewrite !lookup_key_Ok.
  - destruct (emit_loop_total cp exclude_cultivars
                (csv_triples (family_tree self)) []) as [rows Hrows].
    { intros tr Htr%(init_triples_geophytes _ _ _ _ Hinit) _.
      by apply Hkeys. }
    exists rows. rewrite csv_rows_triples, Hp. split; [done|].
    apply emit_loop_Ok in Hrows as (rs & -> & _ & Hl).
    rewrite Forall_forall in Hl. intros r Hr.
    unfold common_name_for_species, url_for_species.
    rewrite !lookup_key_Ok. by apply Hl.
Qed.

Lemma csv_lookups_succeed_witness :
  CalscapePlants_init Sample.sheet = Ok Sample.plants ∧
  CalscapeGeophytes_init Sample.plants Sample.taxa = Ok Sample.object ∧
  ∃ rows, csv_rows Sample.object true = Ok rows.
Proof.
  assert (H0 : CalscapePlants_init Sample.sheet = Ok Sample.plants)
    by (vm_compute; reflexivity).
  assert (H1 : CalscapeGeophytes_init Sample.plants Sample.taxa
               = Ok Sample.object) by (vm_compute; reflexivity).
  split; [exact H0|]. split; [exact H1|].
  destruct (csv_lookups_succeed _ _ _ _ true H0 H1) as (_ & rows & H & _).
  by exists rows.
Defined.

(** C9, as the claim states it, fails: with a genus listed under two
    families the genus is in the genus set of both, while
    [family_for_genus] answers the family of the last row only. *)
Lemma indexes_disagree_on_homonym :
  "Allium" ∈ genuses_for_family Sample.homonym_taxa "Liliaceae" ∧
  family_for_genus Sample.homonym_taxa "Allium" = Ok "Amaryllidaceae" ∧
  ¬ (∀ rows fam g,
       g ∈ genuses_for_family (InatPlantTaxa_init rows) fam ↔
       family_for_genus (InatPlantTaxa_init rows) g = Ok fam).
Proof.
  assert (H1 : "Allium" ∈ genuses_for_family Sample.homonym_taxa "Liliaceae")
    by (vm_compute; reflexivity).
  assert (H2 : family_for_genus Sample.homonym_taxa "Allium"
               = Ok "Amaryllidaceae") by (vm_compute; reflexivity).
  split; [exact H1|]. split; [exact H2|].
  intros Hall.
  apply (Hall Sample.homonym_rows "Liliaceae" "Allium") in H1.
  unfold Sample.homonym_taxa in H2. rewrite H2 in H1. discriminate H1.
Qed.

(** C9, amended.  After [InatPlantTaxa] construction the family
    [family_for_genus] answers for a genus always has that genus in its
    genus set; and for a taxa file in which no genus is listed under two
    families the two indexes agree: a genus is in the genus set of a family
    exactly when [family_for_genus] answers that family. *)
Theorem taxonomy_indexes_consistent rows :
  (∀ fam g,
     family_for_genus (InatPlantTaxa_init rows) g = Ok fam →
     g ∈ genuses_for_family (InatPlantTaxa_init rows) fam) ∧
  (one_family_per_genus rows →
   ∀ fam g,
     g ∈ genuses_for_family (InatPlantTaxa_init rows) fam ↔
     family_for_genus (InatPlantTaxa_init rows) g = Ok fam).
Proof.
  assert (G : ∀ fam g,
    family_for_genus (InatPlantTaxa_init rows) g = Ok fam →
    g ∈ genuses_for_family (InatPlantTaxa_init rows) fam).
  { intros fam g Hf%family_for_genus_Ok%genus_to_family_row.
    by apply elem_of_genuses_for_family. }
  split; [exact G|]. intros Hone fam g. split; [|apply G].
  intros (row & Hin & Hq & <- & <-)%elem_of_genuses_for_family.
  destruct (genus_to_family_is_Some rows row Hin Hq) as [fam' Hfam'].
  apply family_for_genus_Ok. rewrite Hfam'. f_equal.
  apply genus_to_family_row in Hfam' as (row' & Hin' & Hq' & <- & Hname).
  unfold one_family_per_genus in Hone. rewrite Forall_forall in Hone.
  specialize (Hone row' Hin'). rewrite Forall_forall in Hone.
  by apply Hone.
Qed.

Lemma taxonomy_indexes_consistent_witness :
  one_family_per_genus Sample.taxa_rows ∧
  family_for_genus Sample.taxa "Camassia" = Ok "Asparagaceae".
Proof.
  assert (H : one_family_per_genus Sample.taxa_rows).
  { apply (bool_decide_unpack (one_family_per_genus Sample.taxa_rows)).
    vm_compute. exact I. }
  split; [exact H|].
  destruct (taxonomy_indexes_consistent Sample.taxa_rows) as [_ Hiff].
  apply (Hiff H). vm_compute. reflexivity.
Defined.

(** C10.  A name without a space is its own derived genus.  The indexing
    loop raises on no text cell, files such a name under itself and under
    no other key, and the tree loop looks the same one-word genus up: a
    constructed object holds the name in the cell of that genus, and
    construction raises [KeyError] when the name is selected and the genus
    is unmapped. *)
Theorem one_word_name_is_its_genus s :
  contains " " s = false →
  genus_of s = s ∧
  (∀ species, (∀ x, x ∈ species → is_Some x) →
     ∃ d, index_species species = Ok d) ∧
  (∀ species common_names urls cp,
     CalscapePlants_of_columns species common_names urls = Ok cp →
     Some s ∈ species →
     s ∈ species_for_genus cp s ∧
     ∀ genus, s ∈ species_for_genus cp genus → genus = s) ∧
  (∀ cp t self,
     CalscapeGeophytes_init cp t = Ok self → s ∈ geophytes self →
     ∃ fam, family_for_genus t s = Ok fam ∧
            in_cell (family_tree self) fam s s) ∧
  (∀ cp t,
     s ∈ geophytes (select cp t) → genus_to_family t !! s = None →
     ∃ key, CalscapeGeophytes_init cp t = Raise (KeyError key)).
Proof.
  intros Hs%genus_of_no_space. split; [done|]. split_and!.
  - apply index_species_total.
  - intros species common_names urls cp Hcp Hin. split.
    + by apply (elem_of_species_for_genus _ _ _ _ _ _ Hcp).
    + intros genus Hg.
      apply (elem_of_species_for_genus _ _ _ _ _ _ Hcp) in Hg as [_ <-].
      done.
  - intros cp t self Hinit Hgeo.
    destruct (init_geophyte_placed _ _ _ _ Hinit Hgeo) as (fam & Hfam & Hc).
    rewrite Hs in Hfam, Hc. exists fam. split; [|done].
    by apply family_for_genus_Ok.
  - intros cp t Hsel Hnone.
    destruct (init_raises_unmapped cp t s) as (s' & _ & _ & H);
      [done | by rewrite Hs |]. eauto.
Qed.

Lemma one_word_name_is_its_genus_witness :
  contains " " "Allium" = false ∧
  genus_of "Allium" = "Allium" ∧
  ∃ fam, family_for_genus Sample.one_word_taxa "Allium" = Ok fam ∧
         in_cell (family_tree Sample.one_word_object) fam "Allium" "Allium".
Proof.
  assert (H : contains " " "Allium" = false) by reflexivity.
  destruct (one_word_name_is_its_genus "Allium" H) as (E & _ & _ & Hobj & _).
  split; [exact H|]. split; [exact E|].
  apply (Hobj Sample.one_word_plants Sample.one_word_taxa);
    vm_compute; reflexivity.
Defined.

(** * Further properties of the code *)

(** ** Genus derivation *)

(** X1.  The derived genus is the part of the name before its first space:
    it holds no space, a name without a space is its own genus, and any
    other name is the genus, one space, and a rest. *)
Theorem genus_of_is_prefix_before_space s :
  contains " " (genus_of s) = false ∧
  if contains " " s then ∃ rest, s = genus_of s +:+ String " " rest
  else genus_of s = s.
Proof.
  split; [apply genus_of_space_free|].
  destruct (contains " " s) eqn:E; [|by apply genus_of_no_space].
  induction s as [|c s IH]; [done|].
  rewrite genus_of_cons. simpl in E.
  destruct (Ascii.eqb c " ") eqn:Ec.
  - apply Ascii.eqb_eq in Ec as ->. by exists s.
  - simpl in E. destruct (IH E) as [rest Hrest]. exists rest.
    change (String c s = String c (genus_of s +:+ String " " rest)).
    by f_equal.
Qed.

(** ** Loading the worksheet *)

Section Loading.
Implicit Types (sheet : Worksheet) (species keys vals : list value).

Lemma get_column_outcome sheet name r col :
  get_column sheet name r col =
    (if decide (cell sheet col r = Some name)
     then Ok (cell sheet col <$> seq (r + 1) (max_row sheet - r))
     else Raise (AssertionError
       ("Expected " +:+ col +:+ pretty r +:+ " = " +:+ name
          +:+ "; got " +:+ show_value (cell sheet col r)))).
Proof. done. Qed.

Lemma index_species_raises species e :
  index_species species = Raise e → e = AttributeError ∧ None ∈ species.
Proof.
  unfold index_species. generalize (∅ : gmap string (gset string)).
  induction species as [|x species IH]; intros d0 Hrun; [done|].
  simpl in Hrun. destruct x as [s|]; simpl in Hrun.
  - destruct (IH _ Hrun) as [-> Hin]. split; [done | by right].
  - injection Hrun as <-. split; [done | by left].
Qed.

Lemma foldl_insert_lookup_notin keys vals (d : gmap value value) k :
  k ∉ keys →
  foldl (λ d kv, <[kv.1 := kv.2]> d) d (zip keys vals) !! k = d !! k.
Proof.
  revert vals d. induction keys as [|k0 keys IH]; intros vals d Hk; [done|].
  destruct vals as [|v vals]; [done|]. simpl.
  apply not_elem_of_cons in Hk as [Hne Hk].
  rewrite IH by done. by rewrite lookup_insert_ne.
Qed.

Lemma foldl_insert_lookup_last keys vals (d : gmap value value) k i v :
  keys !! i = Some k → vals !! i = Some v →
  (∀ j, (i < j)%nat → keys !! j ≠ Some k) →
  foldl (λ d kv, <[kv.1 := kv.2]> d) d (zip keys vals) !! k = Some v.
Proof.
  revert vals d i. induction keys as [|k0 keys IH]; intros vals d i Hk Hv Hlast;
    [done|].
  destruct vals as [|v0 vals]; [done|]. simpl.
  destruct i as [|i]; simpl in Hk, Hv.
  - injection Hk as ->. injection Hv as ->.
    rewrite foldl_insert_lookup_notin; [by rewrite lookup_insert_eq|].
    intros (j & Hj)%list_elem_of_lookup. by apply (Hlast (S j)); [lia|].
  - apply (IH _ _ i); [done..|].
    intros j Hj. apply (Hlast (S j)). lia.
Qed.
End Loading.

(** X2.  Loading a worksheet ends in one of three ways and no other: it
    returns a table exactly when the three header cells hold their expected
    text and every Botanical Name cell below the header is text; it raises
    [AssertionError] exactly when a header cell differs; and it raises
    [AttributeError] when the headers are right and some Botanical Name cell
    is empty.  It never raises [KeyError]. *)
Theorem CalscapePlants_init_outcome sheet :
  match CalscapePlants_init sheet with
  | Ok _ =>
      headers_ok sheet ∧ ∀ r, r ∈ data_rows sheet → is_Some (cell sheet "A" r)
  | Raise (AssertionError _) => ¬ headers_ok sheet
  | Raise AttributeError =>
      headers_ok sheet ∧ ∃ r, r ∈ data_rows sheet ∧ cell sheet "A" r = None
  | Raise (KeyError _) => False
  end.
Proof.
  unfold CalscapePlants_init, headers_ok, data_rows.
  rewrite !get_column_outcome.
  destruct (decide (cell sheet "A" 6 = Some "Botanical Name")) as [HA|HA];
    simpl; [|tauto].
  destruct (decide (cell sheet "B" 6 = Some "Common Name")) as [HB|HB];
    simpl; [|tauto].
  destruct (decide (cell sheet "AW" 6 = Some "Plant Url")) as [HW|HW];
    simpl; [|tauto].
  unfold CalscapePlants_of_columns.
  destruct (index_species _) as [d|e] eqn:E; simpl.
  - split; [done|]. intros r Hr.
    apply (index_species_strings _ _ E). by apply list_elem_of_fmap_2.
  - apply index_species_raises in E as [-> Hin].
    split; [done|]. apply list_elem_of_fmap in Hin as (r & Hr & Hin). eauto.
Qed.

(** X3.  In a loaded table every genus key has at least one species, the
    species sets of two different genera share no name, and every name of
    the Botanical Name column is found under its derived genus. *)
Theorem genus_to_species_partitions_source species common_names urls cp :
  CalscapePlants_of_columns species common_names urls = Ok cp →
  (∀ genus, genus ∈ genuses cp ↔ species_for_genus cp genus ≠ ∅) ∧
  (∀ genus genus' s,
     s ∈ species_for_genus cp genus → s ∈ species_for_genus cp genus' →
     genus = genus') ∧
  (∀ s, Some s ∈ species → s ∈ species_for_genus cp (genus_of s)).
Proof.
  intros Hcp. split_and!.
  - intros genus. rewrite (elem_of_genuses _ _ _ _ _ Hcp). split.
    + intros (y & Hy & Hg) Hempty.
      assert (y ∈ species_for_genus cp genus) as Hin
        by by apply (elem_of_species_for_genus _ _ _ _ _ _ Hcp).
      rewrite Hempty in Hin. by apply not_elem_of_empty in Hin.
    + intros Hne. apply set_choose_L in Hne as [y Hy].
      apply (elem_of_species_for_genus _ _ _ _ _ _ Hcp) in Hy. eauto.
  - intros genus genus' s
      [_ <-]%(elem_of_species_for_genus _ _ _ _ _ _ Hcp)
      [_ <-]%(elem_of_species_for_genus _ _ _ _ _ _ Hcp). done.
  - intros s Hs. by apply (elem_of_species_for_genus _ _ _ _ _ _ Hcp).
Qed.

Lemma genus_to_species_partitions_source_witness :
  CalscapePlants_of_columns Sample.species Sample.common_names Sample.urls
    = Ok Sample.plants ∧
  "Brodiaea elegans" ∈ species_for_genus Sample.plants "Brodiaea".
Proof.
  assert (H : CalscapePlants_of_columns Sample.species Sample.common_names
                Sample.urls = Ok Sample.plants) by (vm_compute; reflexivity).
  split; [exact H|].
  destruct (genus_to_species_partitions_source _ _ _ _ H) as (_ & _ & Hin).
  apply (Hin "Brodiaea elegans"). by left.
Defined.

(** X4.  When a name fills several rows of the Botanical Name column, the
    last of them decides: [url_for_species] and [common_name_for_species]
    answer the URL and the common name of the last row that carries the
    name; for a name that fills one row they answer that row's cells. *)
Theorem lookups_answer_last_row species common_names urls cp i s cn url :
  CalscapePlants_of_columns species common_names urls = Ok cp →
  species !! i = Some (Some s) →
  (∀ j, (i < j)%nat → species !! j ≠ Some (Some s)) →
  common_names !! i = Some cn →
  urls !! i = Some url →
  common_name_for_species cp s = Ok cn ∧ url_for_species cp s = Ok url.
Proof.
  intros (_ & Hu & Hc)%of_columns_fields Hi Hlast Hcn Hurl.
  unfold common_name_for_species, url_for_species, lookup_key.
  rewrite Hu, Hc. unfold dict_zip.
  rewrite (foldl_insert_lookup_last _ _ _ _ i cn) by done.
  rewrite (foldl_insert_lookup_last _ _ _ _ i url) by done.
  done.
Qed.

Lemma lookups_answer_last_row_witness :
  url_for_species
    (or_else Sample.no_plants
       (CalscapePlants_of_columns
          [Some "Allium unifolium"; Some "Allium unifolium"]
          [Some "Oneleaf onion"; Some "One-leaf onion"]
          [Some "https://calscape.org/7"; Some "https://calscape.org/8"]))
    "Allium unifolium"
  = Ok (Some "https://calscape.org/8").
Proof.
  apply (lookups_answer_last_row
           [Some "Allium unifolium"; Some "Allium unifolium"]
           [Some "Oneleaf onion"; Some "One-leaf onion"]
           [Some "https://calscape.org/7"; Some "https://calscape.org/8"]
           _ 1 "Allium unifolium" (Some "One-leaf onion")).
  - vm_compute. reflexivity.
  - reflexivity.
  - intros [|[|j]] Hj; [lia..|]. simpl. by rewrite lookup_nil.
  - reflexivity.
  - reflexivity.
Defined.

(** ** Reading the taxonomy *)

Section TaxaReading.
Implicit Types (rows : list TaxonRow) (t : InatPlantTaxa).

Lemma foldl_taxa_row_filter rows t :
  foldl taxa_row t (filter plant_genus rows) = foldl taxa_row t rows.
Proof.
  revert t. induction rows as [|row rows IH]; intros t; [done|].
  rewrite filter_cons. simpl. destruct (decide (plant_genus row)) as [Hq|Hq].
  - simpl. apply IH.
  - rewrite IH. f_equal. unfold taxa_row. by rewrite decide_False.
Qed.

Lemma genus_to_family_None rows g :
  genus_to_family (InatPlantTaxa_init rows) !! g = None ↔
  ¬ ∃ row, row ∈ rows ∧ plant_genus row ∧ scientificName row = g.
Proof.
  split.
  - intros Hnone (row & Hin & Hq & <-).
    destruct (genus_to_family_is_Some rows row Hin Hq) as [f Hf]. congruence.
  - intros Hno. destruct (genus_to_family _ !! g) as [f|] eqn:E; [|done].
    apply genus_to_family_row in E as (row & ? & ? & _ & ?).
    exfalso. apply Hno. eauto.
Qed.

Lemma genus_to_family_app_last before row after :
  plant_genus row →
  (∀ r, r ∈ after → plant_genus r → scientificName r ≠ scientificName row) →
  genus_to_family (InatPlantTaxa_init (before ++ row :: after))
    !! scientificName row = Some (family row).
Proof.
  intros Hq. induction after as [|r after IH] using rev_ind; intros Hlater.
  - by apply genus_to_family_last.
  - change (before ++ row :: after ++ [r])
      with (before ++ (row :: after) ++ [r]).
    rewrite app_assoc, InatPlantTaxa_init_snoc. unfold taxa_row.
    assert (Hafter : ∀ r', r' ∈ after → plant_genus r' →
                     scientificName r' ≠ scientificName row).
    { intros r' Hr'. apply Hlater, elem_of_app. by left. }
    case_decide as Hr; simpl; [|by apply IH].
    rewrite lookup_insert_ne; [by apply IH|].
    apply Hlater; [|done]. apply elem_of_app. right. by left.
Qed.
End TaxaReading.

(** X5.  The taxonomy reader keeps the rows of kingdom Plantae and rank
    genus and nothing else: the indexes built from a file are those built
    from its kept rows alone, and [family_for_genus] raises [KeyError] on a
    name exactly when no kept row carries it. *)
Theorem taxa_reader_keeps_plant_genera rows :
  InatPlantTaxa_init rows = InatPlantTaxa_init (filter plant_genus rows) ∧
  ∀ g, family_for_genus (InatPlantTaxa_init rows) g = Raise (KeyError g) ↔
       ¬ ∃ row, row ∈ rows ∧ plant_genus row ∧ scientificName row = g.
Proof.
  split.
  - unfold InatPlantTaxa_init. by rewrite foldl_taxa_row_filter.
  - intros g. rewrite <- genus_to_family_None. unfold family_for_genus.
    destruct (genus_to_family _ !! g); naive_solver.
Qed.

(** X6.  When a genus fills several kept rows, [family_for_genus] answers
    the family of the last of them, while the genus stays in the genus set
    of the family of every such row. *)
Theorem family_for_genus_last_row before row after :
  plant_genus row →
  (∀ r, r ∈ after → plant_genus r → scientificName r ≠ scientificName row) →
  family_for_genus (InatPlantTaxa_init (before ++ row :: after))
    (scientificName row) = Ok (family row) ∧
  ∀ r, r ∈ before → plant_genus r → scientificName r = scientificName row →
       scientificName row ∈
         genuses_for_family (InatPlantTaxa_init (before ++ row :: after))
           (family r).
Proof.
  intros Hq Hlater. split.
  - apply family_for_genus_Ok. by apply genus_to_family_app_last.
  - intros r Hr Hqr Hname. apply elem_of_genuses_for_family.
    exists r. split; [|done]. apply elem_of_app. by left.
Qed.

Lemma family_for_genus_last_row_witness :
  family_for_genus Sample.homonym_taxa "Allium" = Ok "Amaryllidaceae" ∧
  "Allium" ∈ genuses_for_family Sample.homonym_taxa "Liliaceae".
Proof.
  destruct (family_for_genus_last_row
              [Sample.taxon "Liliaceae" "Allium"]
              (Sample.taxon "Amaryllidaceae" "Allium") [])
    as [Hlast Hsets].
  - by split.
  - by intros r ?%elem_of_nil.
  - split; [exact Hlast|].
    apply (Hsets (Sample.taxon "Liliaceae" "Allium")); [by left|by split|done].
Defined.

(** ** The inclusion steps *)

Section Steps.
Implicit Types (self : CalscapeGeophytes) (l : list string).

Lemma set_geophytes_ext (g1 g2 : gset string) self :
  (∀ s, s ∈ g1 ↔ s ∈ g2) → set_geophytes g1 self = set_geophytes g2 self.
Proof. intros H. f_equal. by apply set_eq. Qed.

Lemma add_family_fields fam self :
  calscape_plants (add_family fam self) = calscape_plants self ∧
  inat_taxa (add_family fam self) = inat_taxa self ∧
  calscape_genuses (add_family fam self) = calscape_genuses self ∧
  family_tree (add_family fam self) = family_tree self.
Proof. by rewrite add_family_eq. Qed.

Lemma add_family_as_set fam self :
  ∃ g, add_family fam self = set_geophytes g self ∧
       ∀ s, s ∈ g ↔ s ∈ geophytes (add_family fam self).
Proof.
  eexists. split; [apply add_family_eq|]. intros s.
  by rewrite add_family_eq.
Qed.

Lemma elem_of_family_species (cp : CalscapePlants) (X : gset string) s :
  s ∈ ⋃ (species_for_genus cp <$> elements X) ↔
  ∃ genus, genus ∈ X ∧ s ∈ species_for_genus cp genus.
Proof.
  rewrite elem_of_union_list. setoid_rewrite list_elem_of_fmap.
  setoid_rewrite elem_of_elements. naive_solver.
Qed.

Lemma set_geophytes_twice (g1 g2 : gset string) self :
  set_geophytes g1 (set_geophytes g2 self) = set_geophytes g1 self.
Proof. done. Qed.
End Steps.

(** X7.  The inclusion steps do not depend on the order in which a set of
    genera is walked, and they are idempotent, commute and never remove a
    name: [add_genuses] gives the same object for two lists with the same
    members, [add_family] applied twice is [add_family] applied once, two
    [add_family] steps can be swapped, and the geophyte set only grows. *)
Theorem inclusion_steps_order_free self :
  (∀ l l', (∀ genus, genus ∈ l ↔ genus ∈ l') →
           add_genuses l self = add_genuses l' self) ∧
  (∀ fam, add_family fam (add_family fam self) = add_family fam self) ∧
  (∀ fam fam', add_family fam (add_family fam' self)
               = add_family fam' (add_family fam self)) ∧
  (∀ fam, geophytes self ⊆ geophytes (add_family fam self)).
Proof.
  split_and!.
  - intros l l' Hmem. rewrite !add_genuses_eq. apply set_geophytes_ext.
    intros s. rewrite !elem_of_union, !elem_of_union_list.
    setoid_rewrite list_elem_of_fmap. naive_solver.
  - intros fam.
    destruct (add_family_fields fam self) as (Hp & Ht & Hg & _).
    rewrite (add_family_eq fam (add_family fam self)), Hp, Ht, Hg.
    rewrite (add_family_eq fam self) at 2 3.
    rewrite set_geophytes_twice. apply set_geophytes_ext.
    intros s. rewrite !elem_of_union, elem_of_add_family.
    rewrite !elem_of_family_species. tauto.
  - intros fam fam'.
    destruct (add_family_fields fam self) as (Hp & Ht & Hg & _).
    destruct (add_family_fields fam' self) as (Hp' & Ht' & Hg' & _).
    rewrite (add_family_eq fam (add_family fam' self)), Hp', Ht', Hg'.
    rewrite (add_family_eq fam' (add_family fam self)), Hp, Ht, Hg.
    rewrite (add_family_eq fam' self) at 2.
    rewrite (add_family_eq fam self) at 2.
    rewrite !set_geophytes_twice. apply set_geophytes_ext.
    intros s. rewrite !elem_of_union, !elem_of_add_family.
    rewrite !elem_of_family_species. tauto.
  - intros fam s Hs. apply elem_of_add_family. by left.
Qed.

Lemma inclusion_steps_order_free_witness :
  add_genuses ["Camassia"; "Brodiaea"] Sample.fresh
  = add_genuses ["Brodiaea"; "Camassia"; "Brodiaea"] Sample.fresh.
Proof.
  destruct (inclusion_steps_order_free Sample.fresh) as (Horder & _).
  apply Horder. intros genus.
  rewrite !elem_of_cons, !elem_of_nil. tauto.
Defined.

(** X8.  For a loaded table the selection of [__init__] is this set: the
    names of the Botanical Name column whose derived genus is one of the
    listed genera (the two subfamily lists and "Allium") or is listed by
    the taxonomy reference under Liliaceae, Iridaceae or Tecophilaeaceae. *)
Theorem selection_rule species common_names urls cp t s :
  CalscapePlants_of_columns species common_names urls = Ok cp →
  s ∈ geophytes (select cp t) ↔
  Some s ∈ species ∧
  (genus_of s ∈ BRODIAE_SUBFAMILY_GENUSES ++
                "Allium" :: AGAVE_SUBFAMILY_GEOPHYTE_GENUSES ∨
   ∃ fam, fam ∈ ["Liliaceae"; "Iridaceae"; "Tecophilaeaceae"] ∧
          genus_of s ∈ genuses_for_family t fam).
Proof.
  intros Hcp. rewrite elem_of_select. unfold included.
  setoid_rewrite (elem_of_species_for_genus _ _ _ _ _ _ Hcp).
  setoid_rewrite elem_of_intersection.
  setoid_rewrite (elem_of_genuses _ _ _ _ _ Hcp).
  rewrite elem_of_app, elem_of_cons. split.
  - intros (genus & Hinc & Hs & <-). split; [done|].
    destruct Hinc as [?|[?|[?|(fam & ? & _ & ?)]]]; eauto 10.
  - intros (Hs & Hinc). exists (genus_of s). split; [|done].
    destruct Hinc as [[?|[?|?]]|(fam & ? & ?)]; eauto 10.
Qed.

Lemma selection_rule_witness :
  CalscapePlants_of_columns Sample.species Sample.common_names Sample.urls
    = Ok Sample.plants ∧
  "Quercus agrifolia" ∉ geophytes (select Sample.plants Sample.taxa).
Proof.
  assert (H : CalscapePlants_of_columns Sample.species Sample.common_names
                Sample.urls = Ok Sample.plants) by (vm_compute; reflexivity).
  split; [exact H|].
  intros (_ & Hrule)%(selection_rule _ _ _ _ Sample.taxa _ H).
  destruct Hrule as [Hin|(fam & Hfam & Hin)].
  - vm_compute in Hin.
    repeat (apply elem_of_cons in Hin as [Hin|Hin]; [discriminate Hin|]).
    by apply elem_of_nil in Hin.
  - repeat (apply elem_of_cons in Hfam as [->|Hfam];
            [vm_compute in Hin; discriminate Hin|]).
    by apply elem_of_nil in Hfam.
Defined.

(** ** The tree loop and the order of the set *)

Section TreeOrder.
Implicit Types (ft : gmap string (gmap string (gset string)))
  (t : InatPlantTaxa) (l : list string).

Lemma add_to_comm g s g' s' (m : gmap string (gset string)) :
  add_to g s (add_to g' s' m) = add_to g' s' (add_to g s m).
Proof.
  unfold add_to. destruct (decide (g = g')) as [->|Hne].
  - rewrite !lookup_insert_eq, !insert_insert_eq. simpl.
    f_equal. set_solver.
  - rewrite !lookup_insert_ne by done.
    by rewrite insert_insert_ne.
Qed.

Lemma tree_add_comm f g s f' g' s' ft :
  tree_add f g s (tree_add f' g' s' ft) = tree_add f' g' s' (tree_add f g s ft).
Proof.
  unfold tree_add. destruct (decide (f = f')) as [->|Hne].
  - rewrite !lookup_insert_eq, !insert_insert_eq. simpl.
    by rewrite add_to_comm.
  - rewrite !lookup_insert_ne by done.
    by rewrite insert_insert_ne.
Qed.

Lemma place_swap t x y ft r :
  (ft1 ← place t x ft; place t y ft1) = Ok r →
  (ft1 ← place t y ft; place t x ft1) = Ok r.
Proof.
  rewrite (place_eq t x ft), (place_eq t y ft).
  destruct (genus_to_family t !! genus_of x) as [fx|] eqn:Ex;
    destruct (genus_to_family t !! genus_of y) as [fy|] eqn:Ey;
    simpl; rewrite ?place_eq, ?Ex, ?Ey; try done.
  intros [= <-]. by rewrite tree_add_comm.
Qed.

Lemma build_perm t l l' :
  l ≡ₚ l' →
  ∀ ft r, for_each l (place t) ft = Ok r → for_each l' (place t) ft = Ok r.
Proof.
  induction 1 as [|x l l' _ IH|x y l|l l' l'' _ IH1 _ IH2]; intros ft r Hrun.
  - done.
  - simpl in *. destruct (place t x ft) as [ft1|]; simpl in *; [|done].
    by apply IH.
  - simpl in *.
    destruct (place t y ft) as [fy|] eqn:Ey; simpl in Hrun; [|done].
    destruct (place t x fy) as [fyx|] eqn:Eyx; simpl in Hrun; [|done].
    assert (Hs : (ft1 ← place t x ft; place t y ft1) = Ok fyx).
    { apply place_swap. by rewrite Ey. }
    destruct (place t x ft) as [fx|]; simpl in *; [|done].
    by rewrite Hs.
  - by apply IH2, IH1.
Qed.
End TreeOrder.

(** X9.  The tree loop does not depend on the order in which the geophyte
    set is walked: over two orderings of the same names it either gives the
    same tree, or raises over both. *)
Theorem tree_loop_order_free t l l' ft :
  l ≡ₚ l' →
  match for_each l (place t) ft with
  | Ok r => for_each l' (place t) ft = Ok r
  | Raise _ => is_ok (for_each l' (place t) ft) = false
  end.
Proof.
  intros Hperm. destruct (for_each l (place t) ft) as [r|e] eqn:E.
  - by apply (build_perm t l l' Hperm).
  - destruct (for_each l' (place t) ft) as [r'|e'] eqn:E'; [|done].
    symmetry in Hperm. apply (build_perm t l' l Hperm) in E'. congruence.
Qed.

Lemma tree_loop_order_free_witness :
  for_each ["Brodiaea elegans"; "Calochortus albus"] (place Sample.taxa) ∅
  = Ok (or_else ∅
          (for_each ["Calochortus albus"; "Brodiaea elegans"]
             (place Sample.taxa) ∅)).
Proof.
  pose proof (tree_loop_order_free Sample.taxa
    ["Calochortus albus"; "Brodiaea elegans"]
    ["Brodiaea elegans"; "Calochortus albus"] ∅ (Permutation_swap _ _ _)) as H.
  assert (E : for_each ["Calochortus albus"; "Brodiaea elegans"]
                (place Sample.taxa) ∅
              = Ok (or_else ∅
                      (for_each ["Calochortus albus"; "Brodiaea elegans"]
                         (place Sample.taxa) ∅)))
    by (vm_compute; reflexivity).
  rewrite E in H. exact H.
Defined.

(** ** The counts of the summary *)

Section Counts.
Implicit Types (ft : gmap string (gmap string (gset string)))
  (t : InatPlantTaxa) (l : list string).

Lemma elem_of_tree_pairs ft fam genus :
  (fam, genus) ∈ tree_pairs ft ↔ has_genus ft fam genus.
Proof.
  unfold tree_pairs, has_genus. rewrite list_elem_of_bind. split.
  - intros ([f m] & Hin & Hm). apply elem_of_map_to_list in Hm.
    apply list_elem_of_fmap in Hin as (g & [= -> ->] & Hg).
    apply elem_of_keys in Hg. eauto.
  - intros (m & Hm & Hg). exists (fam, m).
    split; [|by apply elem_of_map_to_list].
    apply list_elem_of_fmap. exists genus. split; [done|].
    by apply elem_of_keys.
Qed.

Lemma NoDup_tree_pairs ft : NoDup (tree_pairs ft).
Proof.
  unfold tree_pairs. apply NoDup_bind.
  - intros [f m] [f' m'] [f0 g0] Hm Hm'
      (g & [= -> ->] & _)%list_elem_of_fmap
      (g' & [= Hf _] & _)%list_elem_of_fmap.
    simpl in *. subst f'.
    apply elem_of_map_to_list in Hm, Hm'. congruence.
  - intros [f m] _. apply NoDup_fmap_2; [|apply NoDup_keys].
    by intros g g' [= ->].
  - apply NoDup_map_to_list.
Qed.

Lemma length_tree_pairs ft :
  length (tree_pairs ft) = sum_list (size <$> (map_to_list ft).*2).
Proof.
  unfold tree_pairs. induction (map_to_list ft) as [|[f m] fms IH]; [done|].
  rewrite bind_cons, length_app, IH. simpl. f_equal.
  rewrite length_fmap. unfold keys. rewrite length_fmap.
  apply length_map_to_list.
Qed.

Lemma has_genus_tree_add fam genus species ft fam' genus' :
  has_genus (tree_add fam genus species ft) fam' genus' ↔
  has_genus ft fam' genus' ∨ (fam' = fam ∧ genus' = genus).
Proof.
  unfold has_genus, tree_add, add_to.
  destruct (decide (fam = fam')) as [->|Hf].
  - rewrite lookup_insert_eq. destruct (decide (genus = genus')) as [->|Hg].
    + split; [auto|]. intros _. eexists. split; [done|].
      rewrite lookup_insert_eq. by eexists.
    + split.
      * intros (m & [= <-] & Hm). rewrite lookup_insert_ne in Hm by done.
        left. destruct (ft !! fam') as [m0|]; simpl in *; [eauto|].
        rewrite lookup_empty in Hm. by destruct Hm.
      * intros [(m & Hm & Hg')|[_ ->]]; [|done].
        eexists. split; [done|]. rewrite lookup_insert_ne by done.
        by rewrite Hm.
  - rewrite lookup_insert_ne by done. naive_solver.
Qed.

Lemma tree_add_families fam genus species ft fam' :
  is_Some (tree_add fam genus species ft !! fam') ↔
  is_Some (ft !! fam') ∨ fam' = fam.
Proof.
  unfold tree_add. destruct (decide (fam = fam')) as [->|Hf].
  - rewrite lookup_insert_eq. split; [auto | by eexists].
  - rewrite lookup_insert_ne by done. naive_solver.
Qed.

(** The keys of the tree once the loop has run over [l]. *)
Lemma build_keys t l ft :
  for_each l (place t) ∅ = Ok ft →
  (∀ fam genus, has_genus ft fam genus ↔
     ∃ s, s ∈ l ∧ genus_of s = genus ∧ genus_to_family t !! genus = Some fam) ∧
  (∀ fam, is_Some (ft !! fam) ↔
     ∃ s, s ∈ l ∧ genus_to_family t !! genus_of s = Some fam).
Proof.
  apply (for_each_ind (λ seen ft,
    (∀ fam genus, has_genus ft fam genus ↔
       ∃ s, s ∈ seen ∧ genus_of s = genus ∧
            genus_to_family t !! genus = Some fam) ∧
    (∀ fam, is_Some (ft !! fam) ↔
       ∃ s, s ∈ seen ∧ genus_to_family t !! genus_of s = Some fam))).
  - split.
    + intros fam genus. split.
      * intros (m & Hm & _). by rewrite lookup_empty in Hm.
      * intros (s & Hs & _). by apply elem_of_nil in Hs.
    + intros fam. rewrite lookup_empty. split.
      * by intros [? ?].
      * intros (s & Hs & _). by apply elem_of_nil in Hs.
  - intros seen x ft1 ft2 [IH1 IH2] _ (f & Hf & ->)%place_Ok. split.
    + intros fam genus. rewrite has_genus_tree_add, IH1.
      setoid_rewrite elem_of_app. setoid_rewrite list_elem_of_singleton.
      split.
      * intros [(s & ? & ? & ?)|[-> ->]]; [exists s; auto|]. exists x. auto.
      * intros (s & [?| ->] & <- & Hg); [left; exists s; auto|].
        right. split; congruence.
    + intros fam. rewrite tree_add_families, IH2.
      setoid_rewrite elem_of_app. setoid_rewrite list_elem_of_singleton.
      split.
      * intros [(s & ? & ?)| ->]; [exists s; auto|]. exists x. auto.
      * intros (s & [?| ->] & Hg); [left; exists s; auto|].
        right. congruence.
Qed.
End Counts.

(** X10.  For a constructed object the summary counts what it names: the
    genus count is the number of distinct derived genera of the geophytes,
    the family count is the number of families in the tree, which are the
    families the taxonomy reference gives for those genera, and the counts
    are ordered: families ≤ genera ≤ geophytes, non-cultivars ≤ geophytes. *)
Theorem summary_counts cp t self :
  CalscapeGeophytes_init cp t = Ok self →
  num_genera (summary self)
    = size (set_map genus_of (geophytes self) : gset string) ∧
  num_families (summary self) = size (dom (family_tree self)) ∧
  (∀ fam, fam ∈ dom (family_tree self) ↔
     ∃ s, s ∈ geophytes self ∧ family_for_genus t (genus_of s) = Ok fam) ∧
  (num_families (summary self) ≤ num_genera (summary self))%nat ∧
  (num_genera (summary self) ≤ num_geophytes (summary self))%nat ∧
  (num_no_cultivars (summary self) ≤ num_geophytes (summary self))%nat.
Proof.
  intros Hinit. pose proof Hinit as (ft & Hrun & ->)%init_Ok.
  destruct (set_family_tree_fields ft (select cp t)) as (_ & _ & _ & Hg & Hft).
  unfold summary. cbn [num_genera num_families num_geophytes num_no_cultivars].
  rewrite Hg, Hft. clear Hinit Hg Hft.
  generalize dependent (geophytes (select cp t)). intros geo Hrun.
  destruct (build_keys _ _ _ Hrun) as [Hpairs Hfams].
  assert (Hmapped : ∀ s, s ∈ geo → is_Some (genus_to_family t !! genus_of s)).
  { intros s Hs. apply (build_Ok_mapped _ _ _ _ Hrun). by apply elem_of_elements. }
  assert (Hnd : NoDup (tree_pairs ft).*2).
  { apply NoDup_fmap_2_strong; [|apply NoDup_tree_pairs].
    intros [f g] [f' g'] (s & _ & _ & Hf)%elem_of_tree_pairs%Hpairs
      (s' & _ & _ & Hf')%elem_of_tree_pairs%Hpairs Heq.
    simpl in Heq. subst g'. congruence. }
  assert (Hgenera : (tree_pairs ft).*2 ≡ₚ elements (set_map genus_of geo : gset string)).
  { apply NoDup_Permutation; [done|apply NoDup_elements|].
    intros g. rewrite elem_of_elements, elem_of_map, list_elem_of_fmap. split.
    - intros ([f g'] & -> & (s & Hs & <- & _)%elem_of_tree_pairs%Hpairs).
      exists s. split; [done | by apply elem_of_elements in Hs].
    - intros (s & -> & Hs). destruct (Hmapped s Hs) as [f Hf].
      exists (f, genus_of s). split; [done|].
      apply elem_of_tree_pairs, Hpairs. exists s.
      split; [by apply elem_of_elements | done]. }
  assert (E3 : length (tree_pairs ft)
               = size (set_map genus_of geo : gset string)).
  { transitivity (length (tree_pairs ft).*2); [by rewrite length_fmap|].
    rewrite Hgenera. reflexivity. }
  assert (E1 : sum_list (size <$> (map_to_list ft).*2)
               = size (set_map genus_of geo : gset string)).
  { by rewrite <- length_tree_pairs. }
  assert (E2 : size ft = size (dom ft)) by by rewrite size_dom.
  split; [exact E1|]. split; [exact E2|]. split_and!.
  - intros fam. rewrite elem_of_dom, Hfams. split.
    + intros (s & Hs%elem_of_elements & Hf). exists s. split; [done|].
      by apply family_for_genus_Ok.
    + intros (s & Hs & Hf%family_for_genus_Ok). exists s.
      split; [by apply elem_of_elements | done].
  - rewrite E1, <- E3.
    transitivity (length (tree_pairs ft).*1); [|by rewrite length_fmap].
    rewrite <- (length_map_to_list ft), <- (length_fmap fst (map_to_list ft)).
    apply submseteq_length, NoDup_submseteq; [apply NoDup_fst_map_to_list|].
    intros f (fm & -> & Hfm)%list_elem_of_fmap. destruct fm as [f m].
    apply elem_of_map_to_list in Hfm. simpl.
    destruct (Hfams f) as [(s & Hs & Hf) _]; [by eexists|].
    apply list_elem_of_fmap. exists (f, genus_of s). split; [done|].
    apply elem_of_tree_pairs, Hpairs. eauto.
  - rewrite E1, <- E3.
    transitivity (length (genus_of <$> elements geo));
      [|by rewrite length_fmap].
    rewrite <- (length_fmap snd (tree_pairs ft)).
    apply submseteq_length, NoDup_submseteq; [done|].
    intros g ([f g'] & -> & (s & Hs & <- & _)%elem_of_tree_pairs%Hpairs)%list_elem_of_fmap.
    simpl. by apply list_elem_of_fmap_2.
  - apply length_filter.
Qed.

Lemma summary_counts_witness :
  CalscapeGeophytes_init Sample.plants Sample.taxa = Ok Sample.object ∧
  num_genera (summary Sample.object) = 3 ∧
  num_genera (summary Sample.object)
    = size (set_map genus_of (geophytes Sample.object) : gset string).
Proof.
  assert (H : CalscapeGeophytes_init Sample.plants Sample.taxa
              = Ok Sample.object) by (vm_compute; reflexivity).
  split; [exact H|]. split; [vm_compute; reflexivity|].
  apply (summary_counts Sample.plants Sample.taxa Sample.object H).
Defined.

(** ** What the report holds *)

(** X11.  The rows computed for a constructed object are its geophytes, one
    row each and none twice, less the cultivars when [exclude_cultivars] is
    set: a name is the species of a row exactly when it is a geophyte that
    passes the cultivar test; and each row carries the derived genus of its
    species, the family the taxonomy reference gives for that genus, and
    the common name and URL the table holds for the species. *)
Theorem csv_rows_exact cp t self exclude_cultivars rows :
  CalscapeGeophytes_init cp t = Ok self →
  csv_rows self exclude_cultivars = Ok rows →
  (∀ s, (∃ r, r ∈ rows ∧ row_species r = s) ↔
        s ∈ geophytes self ∧ (exclude_cultivars && is_cultivar s) = false) ∧
  (∀ r, r ∈ rows →
     row_genus r = genus_of (row_species r) ∧
     family_for_genus t (row_genus r) = Ok (row_family r) ∧
     common_name_for_species cp (row_species r) = Ok (row_common_name r) ∧
     url_for_species cp (row_species r) = Ok (row_url r)) ∧
  NoDup (row_species <$> rows).
Proof.
  intros Hinit [Hkeys Hlook]%csv_rows_Ok.
  destruct (init_fields _ _ _ Hinit) as (Hp & _ & _ & _). rewrite Hp in Hlook.
  assert (Hin : ∀ r, r ∈ rows →
            row_key r ∈ csv_triples (family_tree self) ∧
            kept exclude_cultivars (row_key r)).
  { intros r Hr. apply (list_elem_of_fmap_2 row_key) in Hr.
    rewrite Hkeys in Hr. apply list_elem_of_filter in Hr. tauto. }
  split_and!.
  - intros s. split.
    + intros (r & Hr & <-). destruct (Hin r Hr) as [Hc%elem_of_csv_triples Hk].
      apply (init_cells _ _ _ Hinit) in Hc as (Hgeo & _ & _).
      split; [exact Hgeo | exact Hk].
    + intros [Hs Hkept].
      destruct (init_geophyte_placed _ _ _ _ Hinit Hs) as (fam & _ & Hc).
      assert (Htr : (fam, genus_of s, s)
                    ∈ filter (kept exclude_cultivars)
                        (csv_triples (family_tree self))).
      { apply list_elem_of_filter. split; [done|].
        by apply elem_of_csv_triples. }
      rewrite <- Hkeys in Htr.
      apply list_elem_of_fmap in Htr as (r & Hr & Hin').
      exists r. split; [done|]. unfold row_key in Hr.
      by injection Hr as _ _ <-.
  - intros r Hr. destruct (Hin r Hr) as [Hc%elem_of_csv_triples _].
    apply (init_cells _ _ _ Hinit) in Hc as (Hgeo & Hgenus & Hfam).
    simpl in *. rewrite Forall_forall in Hlook.
    destruct (Hlook r Hr) as [Hcn Hurl].
    split; [done|]. split; [by apply family_for_genus_Ok|].
    unfold common_name_for_species, url_for_species.
    by rewrite !lookup_key_Ok.
  - assert (E : row_species <$> rows = (row_key <$> rows).*2).
    { rewrite <- list_fmap_compose. done. }
    rewrite E, Hkeys.
    apply NoDup_fmap_2_strong; [|apply NoDup_filter, NoDup_csv_triples].
    intros [[f g] s] [[f' g'] s'] [_ Hc%elem_of_csv_triples]%list_elem_of_filter
      [_ Hc'%elem_of_csv_triples]%list_elem_of_filter Heq.
    simpl in *. subst s'.
    by destruct (init_cell_unique _ _ _ _ _ _ _ _ Hinit Hc Hc') as [-> ->].
Qed.

Lemma csv_rows_exact_witness :
  CalscapeGeophytes_init Sample.plants Sample.taxa = Ok Sample.object ∧
  csv_rows Sample.object true = Ok Sample.report_kept ∧
  "Camassia quamash 'Orion'" ∈ geophytes Sample.object ∧
  (∃ r, r ∈ Sample.report_kept ∧ row_species r = "Brodiaea elegans") ∧
  ¬ (∃ r, r ∈ Sample.report_kept ∧
          row_species r = "Camassia quamash 'Orion'").
Proof.
  assert (H0 : CalscapeGeophytes_init Sample.plants Sample.taxa
               = Ok Sample.object) by (vm_compute; reflexivity).
  assert (H1 : csv_rows Sample.object true = Ok Sample.report_kept)
    by (vm_compute; reflexivity).
  destruct (csv_rows_exact _ _ _ _ _ H0 H1) as (Hiff & _ & _).
  split; [exact H0|]. split; [exact H1|].
  split; [vm_compute; reflexivity|]. split.
  - apply Hiff. split; [vm_compute; reflexivity | reflexivity].
  - intros [_ Hk]%Hiff. discriminate Hk.
Defined.

(** ** The whole program *)

Section Program.
Implicit Types (sheet : Worksheet) (taxa_rows : list TaxonRow).

Lemma select_empty_table t :
  geophytes (select Sample.no_plants t) = ∅.
Proof.
  apply set_eq. intros s. rewrite elem_of_select. split.
  - intros (genus & _ & Hs). unfold species_for_genus in Hs. simpl in Hs.
    by rewrite lookup_empty in Hs.
  - by intros ?%not_elem_of_empty.
Qed.

Lemma header_only_table sheet :
  headers_ok sheet → (max_row sheet ≤ 6)%nat →
  CalscapePlants_init sheet = Ok Sample.no_plants.
Proof.
  intros (HA & HB & HW) Hmax. unfold CalscapePlants_init.
  rewrite !get_column_outcome.
  rewrite !decide_True by done.
  replace (max_row sheet - 6) with 0 by lia. done.
Qed.

Lemma bind_Ok {A B} (a : A) (f : A → result B) : (Ok a ≫= f) = f a.
Proof. done. Qed.

Lemma bind_Raise {A B} (e : exn) (f : A → result B) :
  (Raise e ≫= f) = Raise e.
Proof. done. Qed.

Lemma init_of_empty_selection cp t :
  geophytes (select cp t) = ∅ →
  CalscapeGeophytes_init cp t = Ok (set_family_tree ∅ (select cp t)).
Proof.
  intros H. unfold CalscapeGeophytes_init. rewrite H, elements_empty.
  reflexivity.
Qed.

Lemma empty_object_report (self0 : CalscapeGeophytes) ex :
  geophytes self0 = ∅ →
  print_summary (set_family_tree ∅ self0)
    = ["Found 0 geophytes, 0 excluding cultivars";
       "0 genera across 0 families"] ∧
  csv_rows (set_family_tree ∅ self0) ex = Ok [].
Proof.
  destruct self0 as [cp t cg geo ft]. simpl. intros ->. split.
  - unfold print_summary, summary, set_family_tree.
    cbn [num_genera num_families num_geophytes num_no_cultivars
         geophytes family_tree].
    rewrite size_empty, elements_empty, map_to_list_empty, map_size_empty.
    reflexivity.
  - rewrite csv_rows_triples. reflexivity.
Qed.
End Program.

(** X13.  On a worksheet that holds the three headers and no row below
    them, and whatever records with the four fields the taxa file gave, the
    program prints that it found 0 geophytes in 0 genera and 0 families and
    writes no file, with or without an output path: [write_csv] returns
    before it opens anything. *)
Theorem header_only_sheet_reports_nothing sheet taxa_rows ex output_csv fs :
  headers_ok sheet → (max_row sheet ≤ 6)%nat →
  main sheet taxa_rows ex output_csv fs
  = Ok (["Found 0 geophytes, 0 excluding cultivars";
         "0 genera across 0 families"], fs).
Proof.
  intros Hh Hmax. unfold main.
  rewrite (header_only_table _ Hh Hmax), bind_Ok.
  rewrite (init_of_empty_selection _ _ (select_empty_table _)), bind_Ok.
  destruct (empty_object_report
              (select Sample.no_plants (InatPlantTaxa_init taxa_rows)) ex
              (select_empty_table _)) as [-> Hrows].
  case_decide; [reflexivity|].
  unfold write_csv. rewrite Hrows. reflexivity.
Qed.

Lemma header_only_sheet_reports_nothing_witness :
  main (Sample.sheet_of []) Sample.taxa_rows true "out.csv" ∅
  = Ok (["Found 0 geophytes, 0 excluding cultivars";
         "0 genera across 0 families"], ∅).
Proof.
  apply header_only_sheet_reports_nothing.
  - repeat split.
  - simpl. lia.
Defined.

(** X15.  A wrong header stops the program before anything else is read:
    when cell A6 is not "Botanical Name" the program raises
    [AssertionError] with a message that names the cell, the expected text
    and the text found, whatever the other cells, the taxa file and the
    options are. *)
Theorem wrong_first_header_is_fatal sheet taxa_rows ex output_csv fs :
  cell sheet "A" 6 ≠ Some "Botanical Name" →
  main sheet taxa_rows ex output_csv fs
  = Raise (AssertionError
      ("Expected A6 = Botanical Name; got " +:+ show_value (cell sheet "A" 6))).
Proof.
  intros Hne. unfold main, CalscapePlants_init.
  rewrite (get_column_outcome sheet "Botanical Name" 6 "A").
  destruct (decide (cell sheet "A" 6 = Some "Botanical Name")); [done|].
  rewrite !bind_Raise. reflexivity.
Qed.

Lemma wrong_first_header_is_fatal_witness :
  main {| max_row := 0; cell := λ _ _, None |} [] false "" ∅
  = Raise (AssertionError "Expected A6 = Botanical Name; got None").
Proof.
  apply (wrong_first_header_is_fatal {| max_row := 0; cell := λ _ _, None |}).
  done.
Defined.

(** ** Rows of the worksheet and failures of construction *)

Section RowsAndFailures.
Implicit Types (sheet : Worksheet) (t : InatPlantTaxa) (l : list string).

Lemma get_column_lookup sheet name r col cells i :
  get_column sheet name r col = Ok cells →
  (i < max_row sheet - r)%nat →
  cells !! i = Some (cell sheet col (r + 1 + i)).
Proof.
  rewrite get_column_outcome. case_decide; [|done]. intros [= <-] Hi.
  rewrite list_lookup_fmap, lookup_seq_lt by done. done.
Qed.

Lemma get_column_lookup_inv sheet name r col cells i v :
  get_column sheet name r col = Ok cells →
  cells !! i = Some v →
  (i < max_row sheet - r)%nat ∧ v = cell sheet col (r + 1 + i).
Proof.
  intros Hcol Hi.
  assert (Hlt : (i < max_row sheet - r)%nat).
  { rewrite <- (get_column_length _ _ _ _ _ Hcol). by eapply lookup_lt_Some. }
  split; [done|]. rewrite (get_column_lookup _ _ _ _ _ _ Hcol Hlt) in Hi.
  by injection Hi.
Qed.

Lemma build_raises_inv t l ft e :
  for_each l (place t) ft = Raise e →
  ∃ s, s ∈ l ∧ e = KeyError (genus_of s) ∧
       genus_to_family t !! genus_of s = None.
Proof.
  revert ft. induction l as [|x l IH]; intros ft Hrun; [done|].
  simpl in Hrun. rewrite place_eq in Hrun.
  destruct (genus_to_family t !! genus_of x) as [f|] eqn:Ex; simpl in Hrun.
  - destruct (IH _ Hrun) as (s & Hs & He & Hn). exists s.
    split; [by right | done].
  - injection Hrun as <-. exists x. split; [by left | done].
Qed.

Lemma init_Raise cp t e :
  CalscapeGeophytes_init cp t = Raise e →
  ∃ s, s ∈ geophytes (select cp t) ∧ e = KeyError (genus_of s) ∧
       genus_to_family t !! genus_of s = None.
Proof.
  unfold CalscapeGeophytes_init.
  generalize (select cp t). intros self.
  destruct (for_each _ _ _) as [ft|e'] eqn:Hrun; [done|].
  rewrite bind_Raise. intros [= ->].
  apply build_raises_inv in Hrun as (s & Hs%elem_of_elements & -> & Hnone).
  eauto.
Qed.
End RowsAndFailures.

(** X16.  The three columns are read row by row: for a name that stands in
    the Botanical Name column in data row [r] and in no later data row, the
    loaded table answers the Common Name cell and the Plant Url cell of that
    same row [r]. *)
Theorem table_rows_stay_aligned sheet cp r s :
  CalscapePlants_init sheet = Ok cp →
  r ∈ data_rows sheet →
  cell sheet "A" r = Some s →
  (∀ r', r' ∈ data_rows sheet → (r < r')%nat → cell sheet "A" r' ≠ Some s) →
  common_name_for_species cp s = Ok (cell sheet "B" r) ∧
  url_for_species cp s = Ok (cell sheet "AW" r).
Proof.
  unfold CalscapePlants_init, data_rows.
  destruct (get_column sheet "Botanical Name" 6 "A") as [sp|] eqn:E1; [|done].
  destruct (get_column sheet "Common Name" 6 "B") as [cn|] eqn:E2; [|done].
  destruct (get_column sheet "Plant Url" 6 "AW") as [ur|] eqn:E3; [|done].
  rewrite !bind_Ok. intros (_ & Hu & Hc)%of_columns_fields Hr HA Hlast.
  apply elem_of_seq in Hr.
  assert (Hi : (r - 7 < max_row sheet - 6)%nat) by lia.
  assert (Hrow : 6 + 1 + (r - 7) = r) by lia.
  pose proof (get_column_lookup _ _ _ _ _ _ E1 Hi) as H1.
  pose proof (get_column_lookup _ _ _ _ _ _ E2 Hi) as H2.
  pose proof (get_column_lookup _ _ _ _ _ _ E3 Hi) as H3.
  rewrite Hrow in H1, H2, H3. rewrite HA in H1.
  assert (Hlater : ∀ j, (r - 7 < j)%nat → sp !! j ≠ Some (Some s)).
  { intros j Hj Hsp.
    destruct (get_column_lookup_inv _ _ _ _ _ _ _ E1 Hsp) as [Hjlt Hcell].
    apply (Hlast (6 + 1 + j)); [apply elem_of_seq; lia | lia | done]. }
  unfold common_name_for_species, url_for_species, lookup_key.
  rewrite Hu, Hc. unfold dict_zip.
  rewrite (foldl_insert_lookup_last _ _ _ _ (r - 7) (cell sheet "B" r))
    by done.
  rewrite (foldl_insert_lookup_last _ _ _ _ (r - 7) (cell sheet "AW" r))
    by done.
  done.
Qed.

Lemma table_rows_stay_aligned_witness :
  CalscapePlants_init Sample.sheet = Ok Sample.plants ∧
  url_for_species Sample.plants "Quercus agrifolia"
    = Ok (Some "https://calscape.org/4").
Proof.
  assert (H : CalscapePlants_init Sample.sheet = Ok Sample.plants)
    by (vm_compute; reflexivity).
  split; [exact H|].
  apply (table_rows_stay_aligned Sample.sheet Sample.plants 10
           "Quercus agrifolia" H).
  - apply elem_of_seq. simpl. lia.
  - reflexivity.
  - intros r' Hr' Hlt. apply elem_of_seq in Hr'. simpl in Hr'.
    assert (r' = 11) as -> by lia. discriminate.
Defined.

(** X17.  On a loaded table and a taxonomy read from a file, construction
    can fail on the explicitly listed genera only: the one exception it
    raises is [KeyError] on a genus of the two subfamily lists or "Allium"
    that has species in the table and no kept row in the taxa file.  A
    species selected through a family always finds its family. *)
Theorem construction_fails_on_listed_genus_only
    species common_names urls cp rows e :
  CalscapePlants_of_columns species common_names urls = Ok cp →
  CalscapeGeophytes_init cp (InatPlantTaxa_init rows) = Raise e →
  ∃ genus,
    e = KeyError genus ∧
    genus ∈ BRODIAE_SUBFAMILY_GENUSES ++
            "Allium" :: AGAVE_SUBFAMILY_GEOPHYTE_GENUSES ∧
    species_for_genus cp genus ≠ ∅ ∧
    ¬ ∃ row, row ∈ rows ∧ plant_genus row ∧ scientificName row = genus.
Proof.
  intros Hcp (s & Hs & -> & Hnone)%init_Raise.
  apply elem_of_select in Hs as (genus & Hinc & Hsp).
  pose proof Hsp as [_ <-]%(elem_of_species_for_genus _ _ _ _ _ _ Hcp).
  exists (genus_of s). split; [done|].
  assert (Hnorow : ¬ ∃ row, row ∈ rows ∧ plant_genus row ∧
                            scientificName row = genus_of s)
    by by apply genus_to_family_None.
  split_and!; [| |done].
  - rewrite elem_of_app, elem_of_cons.
    destruct Hinc as [?|[?|[?|(fam & _ & [_ Hfam]%elem_of_intersection)]]];
      [auto..|].
    exfalso. apply Hnorow.
    apply elem_of_genuses_for_family in Hfam as (row & ? & ? & _ & ?). eauto.
  - intros Hempty. rewrite Hempty in Hsp. by apply not_elem_of_empty in Hsp.
Qed.

Lemma construction_fails_on_listed_genus_only_witness :
  CalscapeGeophytes_init Sample.plants
    (InatPlantTaxa_init [Sample.taxon "Asparagaceae" "Brodiaea"])
  = Raise (KeyError "Camassia") ∧
  "Camassia" ∈ BRODIAE_SUBFAMILY_GENUSES ++
               "Allium" :: AGAVE_SUBFAMILY_GEOPHYTE_GENUSES.
Proof.
  assert (H0 : CalscapePlants_of_columns Sample.species Sample.common_names
                 Sample.urls = Ok Sample.plants) by (vm_compute; reflexivity).
  assert (H1 : CalscapeGeophytes_init Sample.plants
                 (InatPlantTaxa_init [Sample.taxon "Asparagaceae" "Brodiaea"])
               = Raise (KeyError "Camassia")) by (vm_compute; reflexivity).
  destruct (construction_fails_on_listed_genus_only _ _ _ _ _ _ H0 H1)
    as (genus & [= <-] & Hin & _).
  split; [exact H1 | exact Hin].
Defined.
